(** * gormutils: idempotent DDL helpers, transactional wrapper and
    migration orchestrator, embedded over an abstract ORM handle.

    Sources embedded here:
    - [dbutils.go]            (module [Dbutils])
    - [migrate.go]            (module [Migrate])
    - [unnamed/part_000]      (module [Part000], the near-duplicate of
                               [migrate.go])

    The ORM ([*gorm.DB]), the structured logger and the standard logger
    are external to the package.  They are modelled as an interface record
    ([Gorm]) of state transformers on an abstract database state, and
    every call the package makes to them is recorded as an [Event] in the
    order in which it is made. *)

From stdpp Require Import base strings list gmap pretty.
From Stdlib Require Import Ascii.
From Equations Require Import Equations.

Local Open Scope string_scope.
Local Open Scope list_scope.

(** ** Go values *)

(** A Go [error] value.  Two error values may carry the same message and
    still be different values, so a value produced outside the package has
    an identity [code] next to its message; [ErrorString] is the value
    that [fmt.Errorf] builds. *)
Inductive error : Type :=
| ForeignError (code : nat) (msg : string)
| ErrorString (msg : string).

(** [err.Error()] *)
Definition Error (e : error) : string :=
  match e with
  | ForeignError _ msg => msg
  | ErrorString msg => msg
  end.

(** A non-nil [interface{}] value, as far as the package looks into one:
    either it is an [error] (type assertion [r.(error)] succeeds) or it is
    a plain value.  A value recovered from a panic is never nil: since Go
    1.21 [panic(nil)] reaches [recover] as a [*runtime.PanicNilError],
    which is an [error]. *)
Inductive any : Type :=
| AnyError (e : error)
| AnyString (s : string)
| AnyInt (z : Z)
| AnyBool (b : bool).

(** [fmt.Sprintf("%+v", r)] on the values above. *)
Definition Sprintf_plus_v (r : any) : string :=
  match r with
  | AnyError e => Error e
  | AnyString s => s
  | AnyInt z => pretty z
  | AnyBool true => "true"
  | AnyBool false => "false"
  end.

(** [fmt.Errorf("%+v", r)] *)
Definition Errorf_plus_v (r : any) : error := ErrorString (Sprintf_plus_v r).

(** The double quote character, for the message templates. *)
Definition dq : string := String (Ascii.ascii_of_nat 34) EmptyString.

(** A persisted field as [scope.Fields()] lists it: its column name
    ([f.DBName]) and its current value ([f.Field.Interface()]). *)
Record Field : Type := mkField { DBName : string; FieldValue : any }.

(** ** The external interface *)

(** Everything the package calls but does not define.  [St] is the state
    of the database behind the handle; [Model] is the type of the Go
    values passed as models and table descriptors. *)
Record Gorm : Type := mkGorm {
  St : Type;
  Model : Type;
  (** [fmt.Sprintf("%T", table)] *)
  TypeName : Model -> string;
  (** [table.(Migratable)]: the [AfterMigrate] method when the value has one *)
  asMigratable : Model -> option (St -> option error * St);
  (** [db.NewScope(model).TableName()], [.QuotedTableName()], [.Quote(name)],
      [.Fields()] *)
  TableName : Model -> string;
  QuotedTableName : Model -> string;
  Quote : string -> string;
  Fields : Model -> list Field;
  (** [db.Model(model).AddForeignKey(column, table, onDelete, onUpdate).Error] *)
  db_AddForeignKey : Model -> string -> string -> string -> string -> St -> option error * St;
  (** [db.Exec(sql).Error] *)
  db_Exec : string -> St -> option error * St;
  (** [db.AutoMigrate(table).Error] *)
  db_AutoMigrate : Model -> St -> option error * St;
  (** [db.DropTableIfExists(table).Error] *)
  db_DropTableIfExists : Model -> St -> option error * St;
  (** [db.Begin()], [tx.Rollback().Error], [tx.Commit().Error] *)
  db_Begin : St -> St;
  db_Rollback : St -> option error * St;
  db_Commit : St -> option error * St
}.

(** Severity levels of the structured logger used by the orchestrator. *)
Inductive Level : Type := Debug | Info | Crit.

(** Calls into the ORM (and into a table's hook). *)
Inductive Call (G : Gorm) : Type :=
| CallAddForeignKey (model : Model G) (column table onDelete onUpdate : string)
| CallExec (sql : string)
| CallAutoMigrate (table : Model G)
| CallAfterMigrate (table : Model G)
| CallDropTableIfExists (table : Model G)
| CallBegin
| CallUnitOfWork
| CallRollback
| CallCommit.
Arguments CallAddForeignKey {G}.
Arguments CallExec {G}.
Arguments CallAutoMigrate {G}.
Arguments CallAfterMigrate {G}.
Arguments CallDropTableIfExists {G}.
Arguments CallBegin {G}.
Arguments CallUnitOfWork {G}.
Arguments CallRollback {G}.
Arguments CallCommit {G}.

(** What the package does to the outside, in order. *)
Inductive Event (G : Gorm) : Type :=
| EvCall (c : Call G) (r : option error)   (* a call and the error it returned *)
| EvLog (lvl : Level) (keyvals : list any) (* l.Info().Log(...), l.Debug()..., l.Crit()... *)
| EvScopeLog (msg : string)                (* scope.Log(msg) *)
| EvPrintln (args : list any)              (* log.Println(...) *)
| EvPrintStack                             (* debug.PrintStack() *)
| EvPanicked (c : Call G) (v : any).       (* a call that panicked with [v] *)
Arguments EvCall {G}.
Arguments EvPanicked {G}.
Arguments EvLog {G}.
Arguments EvScopeLog {G}.
Arguments EvPrintln {G}.
Arguments EvPrintStack {G}.

(** ** The effect monad: database state, event trace, panics *)

Inductive Res (A : Type) : Type :=
| Val (a : A)
| Panic (v : any).
Arguments Val {A}.
Arguments Panic {A}.

Definition M (G : Gorm) (A : Type) : Type := St G -> Res A * St G * list (Event G).

Definition ret {G A} (a : A) : M G A := fun s => (Val a, s, []).

Definition bind {G A B} (m : M G A) (k : A -> M G B) : M G B :=
  fun s =>
    match m s with
    | (Val a, s1, t1) =>
        match k a s1 with
        | (r, s2, t2) => (r, s2, t1 ++ t2)
        end
    | (Panic v, s1, t1) => (Panic v, s1, t1)
    end.

Definition panic {G A} (v : any) : M G A := fun s => (Panic v, s, []).

Definition emit {G} (e : Event G) : M G unit := fun s => (Val tt, s, [e]).

(** A call into the ORM: run the state transformer, record the call and
    its result. *)
Definition call {G} (c : Call G) (op : St G -> option error * St G) : M G (option error) :=
  fun s => let '(r, s1) := op s in (Val r, s1, [EvCall c r]).

Declare Scope go_scope.
Delimit Scope go_scope with go.
Notation "x <~ c1 ;; c2" := (bind c1 (fun x => c2))
  (at level 100, c1 at next level, right associativity) : go_scope.
Notation "c1 ;;; c2" := (bind c1 (fun _ => c2))
  (at level 100, right associativity) : go_scope.
Local Open Scope go_scope.

(** Projections of a run. *)
Definition result {G A} (x : Res A * St G * list (Event G)) : Res A := x.1.1.
Definition final {G A} (x : Res A * St G * list (Event G)) : St G := x.1.2.
Definition trace {G A} (x : Res A * St G * list (Event G)) : list (Event G) := x.2.

(** The calls of a trace, without the log lines. *)
Definition calls {G} (t : list (Event G)) : list (Call G * option error) :=
  omap (fun e => match e with EvCall c r => Some (c, r) | _ => None end) t.

(** The log lines of a trace written through [scope.Log]. *)
Definition scopeLogs {G} (t : list (Event G)) : list string :=
  omap (fun e => match e with EvScopeLog m => Some m | _ => None end) t.

(** ** Go control flow *)

(** [for _, x := range xs { body }], where the body either falls through
    ([None]) or leaves the function with [return err] ([Some err]). *)
Fixpoint forEach {G A} (body : A -> M G (option error)) (xs : list A) : M G (option error) :=
  match xs with
  | [] => ret None
  | x :: rest =>
      r <~ body x ;;
      match r with
      | Some e => ret (Some e)
      | None => forEach body rest
      end
  end.

(** [for i := range xs { body }] run for the [n] indices from [i] on. *)
Fixpoint forRangeFrom {G} (body : nat -> M G (option error)) (i n : nat) : M G (option error) :=
  match n with
  | 0 => ret None
  | S n' =>
      r <~ body i ;;
      match r with
      | Some e => ret (Some e)
      | None => forRangeFrom body (S i) n'
      end
  end.

Definition forRange {G A} (xs : list A) (body : nat -> M G (option error)) : M G (option error) :=
  forRangeFrom body 0 (length xs).

(** The run-time error of an index out of range. *)
Definition indexOutOfRange : any :=
  AnyError (ErrorString "runtime error: index out of range").

(** [xs[i]]: panics out of range. *)
Definition index {G A} (xs : list A) (i : nat) : M G A :=
  match xs !! i with
  | Some x => ret x
  | None => panic indexOutOfRange
  end.

(** [l.Info().Log(keyvals...)] and its siblings. *)
Definition logAt {G} (lvl : Level) (keyvals : list any) : M G unit :=
  emit (EvLog lvl keyvals).

(** ** [regexp]: the one pattern of the package *)

Module Regexp.

(** [[^)]+], greedy: the longest prefix free of [)] and what follows it. *)
Fixpoint spanNotRParen (s : string) : string * string :=
  match s with
  | EmptyString => (EmptyString, EmptyString)
  | String c t =>
      if Ascii.eqb c ")"%char then (EmptyString, s)
      else let '(g, r) := spanNotRParen t in (String c g, r)
  end.

(** [\)?], greedy. *)
Definition optRParen (s : string) : string :=
  match s with
  | String ")"%char t => t
  | _ => s
  end.

(** [ ?\(], greedy on the space; the text after the parenthesis. *)
Definition optSpaceLParen (s : string) : option string :=
  match s with
  | String " "%char (String "("%char t) => Some t
  | String "("%char t => Some t
  | _ => None
  end.

(** The pattern [ ?\(([^)]+)\)?] matched at the start of [s]: the text of
    group 1 and the text after the match.  One preferred match exists at
    a position: the group takes everything up to the next [)] (or the end
    of the text), and the closing parenthesis is taken when it is there. *)
Definition keyMatcher_at (s : string) : option (string * string) :=
  match optSpaceLParen s with
  | Some t =>
      match spanNotRParen t with
      | (EmptyString, _) => None
      | (g, r) => Some (g, optRParen r)
      end
  | None => None
  end.

(** The match at the start of [s], kept with its defining equation for
    the recursion below. *)
Definition keyMatcher_step (s : string) :
  { o : option (string * string) | keyMatcher_at s = o } :=
  exist _ (keyMatcher_at s) eq_refl.

(** [keyMatcher.ReplaceAllString(s, "_${1}")]: scanning from the left,
    each match is replaced by an underscore followed by its group 1 and
    the scan resumes after the match; text outside matches is copied. *)
Equations? ReplaceAllString (s : string) : string by wf (String.length s) lt :=
  ReplaceAllString EmptyString := EmptyString;
  ReplaceAllString (String c t) with keyMatcher_step (String c t) => {
    | exist _ (Some (g, rest)) Heq := "_" +:+ g +:+ ReplaceAllString rest;
    | exist _ None _ := String c (ReplaceAllString t) }.
Proof.
  assert (Hspan : forall u, String.length (spanNotRParen u).2 <= String.length u).
  { induction u as [|a u IH]; simpl; [lia|].
    destruct (Ascii.eqb a ")"); simpl; [lia|].
    destruct (spanNotRParen u) as [g0 r0]; simpl in *; lia. }
  assert (Hopt : forall u, String.length (optRParen u) <= String.length u).
  { intros [|a u]; [simpl; lia|].
    destruct a as [[] [] [] [] [] [] [] []]; simpl; lia. }
  assert (Hlp : forall u v, optSpaceLParen u = Some v ->
                            String.length v < String.length u).
  { intros [|a u] v; [discriminate|].
    destruct a as [[] [] [] [] [] [] [] []]; try discriminate;
      [intros [= <-]; simpl; lia|].
    destruct u as [|a' u']; [discriminate|].
    destruct a' as [[] [] [] [] [] [] [] []]; try discriminate.
    intros [= <-]; simpl; lia. }
  unfold keyMatcher_at in Heq.
  destruct (optSpaceLParen (String c t)) as [u|] eqn:Hu; [|discriminate].
  apply Hlp in Hu. specialize (Hspan u).
  destruct (spanNotRParen u) as [g' r'] eqn:Hsp; simpl in Hspan.
  destruct g'; [discriminate|].
  injection Heq as <- <-.
  specialize (Hopt r'). simpl in Hu. lia.
Qed.

(** Whether the character occurs in the text. *)
Fixpoint occurs (c : ascii) (s : string) : bool :=
  match s with
  | EmptyString => false
  | String a t => Ascii.eqb a c || occurs c t
  end.

End Regexp.

(** ** dbutils.go *)

Module Dbutils.
Section WithGorm.
Variable G : Gorm.

(** [keyMatcher] with the replacement template ["_${1}"] *)
Definition tableFragmentOf (table : string) : string :=
  Regexp.ReplaceAllString table.

(** The message expected from the database when the foreign key exists. *)
Definition foreignKeyExistsMsg (sourceTable column table : string) : string :=
  let tableFragment := tableFragmentOf table in
  "pq: constraint " +:+ dq +:+ sourceTable +:+ "_" +:+ column +:+ "_" +:+
  tableFragment +:+ "_foreign" +:+ dq +:+ " for relation " +:+ dq +:+
  sourceTable +:+ dq +:+ " already exists".

Definition EnsureForeignKey (model : Model G)
    (sourceTable column table onDelete onUpdate : string) : M G (option error) :=
  err <~ call (CallAddForeignKey model column table onDelete onUpdate)
              (db_AddForeignKey G model column table onDelete onUpdate) ;;
  match err with
  | Some e =>
      let expectedMsg := foreignKeyExistsMsg sourceTable column table in
      if String.eqb (Error e) expectedMsg then
        emit (EvScopeLog ("Foreign-key constraint appears to already exist: " +:+ Error e)) ;;;
        ret None
      else ret (Some e)
  | None => ret None
  end.

Definition constraintExistsMsg (name tableName : string) : string :=
  "pq: constraint " +:+ dq +:+ name +:+ dq +:+ " for relation " +:+ dq +:+
  tableName +:+ dq +:+ " already exists".

Definition constraintQuery (model : Model G) (name constraint : string) : string :=
  "ALTER TABLE " +:+ QuotedTableName G model +:+ " ADD CONSTRAINT " +:+
  Quote G name +:+ " " +:+ constraint +:+ ";".

Definition EnsureConstraint (model : Model G) (name constraint : string) : M G (option error) :=
  let sql := constraintQuery model name constraint in
  err <~ call (CallExec sql) (db_Exec G sql) ;;
  match err with
  | Some e =>
      let expectedMsg := constraintExistsMsg name (TableName G model) in
      if String.eqb (Error e) expectedMsg then
        emit (EvScopeLog ("Constraint appears to already exist: " +:+ Error e)) ;;;
        ret None
      else ret (Some e)
  | None => ret None
  end.

Definition indexExistsMsg (name : string) : string :=
  "pq: relation " +:+ dq +:+ name +:+ dq +:+ " already exists".

Definition indexQuery (name constraint : string) (unique : bool) : string :=
  (if unique then "CREATE UNIQUE INDEX " else "CREATE INDEX ") +:+
  Quote G name +:+ " ON " +:+ constraint +:+ ";".

Definition EnsureIndex (model : Model G) (name constraint : string) (unique : bool)
    : M G (option error) :=
  let sql := indexQuery name constraint unique in
  err <~ call (CallExec sql) (db_Exec G sql) ;;
  match err with
  | Some e =>
      let expectedMsg := indexExistsMsg name in
      if String.eqb (Error e) expectedMsg then
        emit (EvScopeLog ("Index appears to already exist: " +:+ Error e)) ;;;
        ret None
      else ret (Some e)
  | None => ret None
  end.

(** The function handed to [Transact]: it works on the transaction and
    either returns an error (possibly nil) or panics with a value. *)
Definition UnitOfWork : Type := St G -> Res (option error) * St G.

(** [err = f(tx)], with the panic kept for the deferred function. *)
Definition runUnitOfWork (f : UnitOfWork) : M G (Res (option error)) :=
  fun s =>
    let '(o, s1) := f s in
    (Val o, s1,
     [match o with
      | Val r => EvCall CallUnitOfWork r
      | Panic v => EvPanicked CallUnitOfWork v
      end]).

(** [if er, ok := r.(error); ok { err = er } else { err = fmt.Errorf("%+v", r) }] *)
Definition recoveredError (r : any) : error :=
  match r with
  | AnyError er => er
  | _ => Errorf_plus_v r
  end.

(** The deferred function of [Transact].  [recovered] is what [recover()]
    returns, [err] the named result at that point. *)
Definition deferred (recovered : option any) (err : option error) : M G (option error) :=
  err <~ match recovered with
         | Some r =>
             let err := recoveredError r in
             emit (EvPrintln [AnyError err]) ;;;
             emit EvPrintStack ;;;
             ret (Some err)
         | None => ret err
         end ;;
  match err with
  | Some _ =>
      e <~ call CallRollback (db_Rollback G) ;;
      match e with
      | Some e => emit (EvPrintln [AnyString "Rollback Error:"; AnyError e])
      | None => ret tt
      end ;;;
      ret err
  | None => call CallCommit (db_Commit G)
  end.

Definition Transact (f : UnitOfWork) : M G (option error) :=
  call CallBegin (fun s => (None, db_Begin G s)) ;;;
  o <~ runUnitOfWork f ;;
  match o with
  | Val err => deferred None err
  | Panic r => deferred (Some r) None
  end.

(** [r[prefix+f.DBName] = f.Field.Interface()] *)
Definition setColumn (prefix : string) (r : gmap string any) (f : Field) : gmap string any :=
  <[prefix +:+ DBName f := FieldValue f]> r.

(** The map starts empty and takes each field in turn. *)
Definition ToUpdateColumnsMap (prefix : string) (structval : Model G) : gmap string any :=
  foldl (setColumn prefix) ∅ (Fields G structval).

(** ** Vocabulary of the properties *)

(** What the deferred function writes after the rollback answered [r]. *)
Definition rollbackReport (r : option error) : list (Event G) :=
  match r with
  | Some e => [EvPrintln [AnyString "Rollback Error:"; AnyError e]]
  | None => []
  end.

(** A helper that got [err] from the database and answered with [out]
    classifies it by comparing its message with [expectedMsg]. *)
Definition classifies (expectedMsg : string) (err : option error)
    (out : Res (option error) * St G * list (Event G)) : Prop :=
  match err with
  | None => result out = Val None /\ scopeLogs (trace out) = []
  | Some e =>
      ((result out = Val None /\ length (scopeLogs (trace out)) = 1)
       <-> Error e = expectedMsg)
      /\ (Error e <> expectedMsg ->
          result out = Val (Some e) /\ scopeLogs (trace out) = [])
  end.

(** A map holding one entry per field: as many entries as fields, and
    under each field's prefixed column name that field's value. *)
Definition oneEntryPerField (prefix : string) (fs : list Field) (r : gmap string any) : Prop :=
  size r = length fs /\
  forall f, f ∈ fs -> r !! (prefix +:+ DBName f) = Some (FieldValue f).

(** How often a trace commits and rolls back. *)
Definition isCommit (e : Event G) : bool :=
  match e with EvCall CallCommit _ => true | _ => false end.
Definition isRollback (e : Event G) : bool :=
  match e with EvCall CallRollback _ => true | _ => false end.
Definition commits (t : list (Event G)) : nat := length (filter isCommit t).
Definition rollbacks (t : list (Event G)) : nat := length (filter isRollback t).

End WithGorm.
Arguments classifies {G}.
Arguments rollbackReport {G}.
End Dbutils.

(** ** migrate.go *)

Module Migrate.
Section WithGorm.
Variable G : Gorm.

(** The body of the loop of [AutoMigrate] for one table. *)
Definition migrateTable (table : Model G) : M G (option error) :=
  let name := TypeName G table in
  logAt Debug [AnyString "msg"; AnyString ("auto-migrating " +:+ TypeName G table);
               AnyString "table"; AnyString name] ;;;
  err <~ call (CallAutoMigrate table) (db_AutoMigrate G table) ;;
  match err with
  | Some e =>
      logAt Crit [AnyString "during"; AnyString "db/migrate.AutoMigrate";
                  AnyString "err"; AnyError e;
                  AnyString "msg"; AnyString ("error during auto migration: " +:+ Error e)] ;;;
      ret (Some e)
  | None =>
      match asMigratable G table with
      | Some afterMigrate =>
          logAt Debug [AnyString "table"; AnyString name;
                       AnyString "msg";
                       AnyString ("executing AfterMigrate for " +:+ TypeName G table)] ;;;
          err <~ call (CallAfterMigrate table) afterMigrate ;;
          match err with
          | Some e =>
              logAt Crit [AnyString "during"; AnyString "migratable.AfterMigrate";
                          AnyString "err"; AnyError e;
                          AnyString "msg";
                          AnyString ("error during migratable callbacks: " +:+ Error e)] ;;;
              ret (Some e)
          | None => ret None
          end
      | None => ret None
      end
  end.

Definition AutoMigrate (tables : list (Model G)) : M G (option error) :=
  logAt Info [AnyString "msg"; AnyString "running db auto-migration..."] ;;;
  r <~ forEach migrateTable tables ;;
  match r with
  | Some e => ret (Some e)
  | None =>
      logAt Info [AnyString "msg"; AnyString "db auto-migration done."] ;;;
      ret None
  end.

(** What [Drop] does with the table it picked. *)
Definition dropTable (table : Model G) : M G (option error) :=
  logAt Debug [AnyString "msg"; AnyString ("drop table " +:+ TypeName G table);
               AnyString "table"; AnyString (TypeName G table)] ;;;
  err <~ call (CallDropTableIfExists table) (db_DropTableIfExists G table) ;;
  match err with
  | Some e =>
      logAt Crit [AnyString "during"; AnyString "db.DropTableIfExists";
                  AnyString "err"; AnyError e;
                  AnyString "msg"; AnyString ("error drop table: " +:+ Error e)] ;;;
      ret (Some e)
  | None => ret None
  end.

Definition Drop (tables : list (Model G)) : M G (option error) :=
  logAt Info [AnyString "msg"; AnyString "running db drop"] ;;;
  let len := length tables in
  r <~ forRange tables (fun i =>
         table <~ index tables (len - i - 1) ;;
         dropTable table) ;;
  match r with
  | Some e => ret (Some e)
  | None =>
      logAt Info [AnyString "msg"; AnyString "db drop complete"] ;;;
      ret None
  end.

(** The statement [Truncate] executes for a table. *)
Definition truncateSQL (table : Model G) : string :=
  "TRUNCATE TABLE " +:+ QuotedTableName G table.

Definition truncateTable (table : Model G) : M G (option error) :=
  logAt Debug [AnyString "msg"; AnyString ("truncate table " +:+ TypeName G table);
               AnyString "table"; AnyString (TypeName G table)] ;;;
  err <~ call (CallExec (truncateSQL table)) (db_Exec G (truncateSQL table)) ;;
  match err with
  | Some e =>
      logAt Crit [AnyString "during"; AnyString "Truncate";
                  AnyString "err"; AnyError e;
                  AnyString "msg"; AnyString ("error truncate table: " +:+ Error e)] ;;;
      ret (Some e)
  | None => ret None
  end.

Definition Truncate (tables : list (Model G)) : M G (option error) :=
  logAt Info [AnyString "msg"; AnyString "running db truncate"] ;;;
  let len := length tables in
  r <~ forRange tables (fun i =>
         table <~ index tables (len - i - 1) ;;
         truncateTable table) ;;
  match r with
  | Some e => ret (Some e)
  | None =>
      logAt Info [AnyString "msg"; AnyString "db truncate complete"] ;;;
      ret None
  end.

Definition ResetDB (tables : list (Model G)) : M G (option error) :=
  err <~ Drop tables ;;
  match err with
  | Some e => ret (Some e)
  | None => AutoMigrate tables
  end.

End WithGorm.
End Migrate.

(** ** unnamed/part_000: the near-duplicate of migrate.go *)

Module Part000.
Section WithGorm.
Variable G : Gorm.

Definition migrateTable (table : Model G) : M G (option error) :=
  let name := TypeName G table in
  logAt Debug [AnyString "msg"; AnyString ("auto-migrating " +:+ TypeName G table);
               AnyString "table"; AnyString name] ;;;
  err <~ call (CallAutoMigrate table) (db_AutoMigrate G table) ;;
  match err with
  | Some e =>
      logAt Crit [AnyString "during"; AnyString "db/migrate.AutoMigrate";
                  AnyString "err"; AnyError e;
                  AnyString "msg"; AnyString ("error during auto migration: " +:+ Error e)] ;;;
      ret (Some e)
  | None =>
      match asMigratable G table with
      | Some afterMigrate =>
          logAt Debug [AnyString "table"; AnyString name;
                       AnyString "msg";
                       AnyString ("executing AfterMigrate for " +:+ TypeName G table)] ;;;
          err <~ call (CallAfterMigrate table) afterMigrate ;;
          match err with
          | Some e =>
              logAt Crit [AnyString "during"; AnyString "migratable.AfterMigrate";
                          AnyString "err"; AnyError e;
                          AnyString "msg";
                          AnyString ("error during migratable callbacks: " +:+ Error e)] ;;;
              ret (Some e)
          | None => ret None
          end
      | None => ret None
      end
  end.

Definition AutoMigrate (tables : list (Model G)) : M G (option error) :=
  logAt Info [AnyString "msg"; AnyString "running db auto-migration..."] ;;;
  r <~ forEach migrateTable tables ;;
  match r with
  | Some e => ret (Some e)
  | None =>
      logAt Info [AnyString "msg"; AnyString "db auto-migration done."] ;;;
      ret None
  end.

(** What this file's [Truncate] does with the table it picked. *)
Definition truncateTable (table : Model G) : M G (option error) :=
  logAt Debug [AnyString "msg"; AnyString ("truncating " +:+ TypeName G table);
               AnyString "table"; AnyString (TypeName G table)] ;;;
  err <~ call (CallDropTableIfExists table) (db_DropTableIfExists G table) ;;
  match err with
  | Some e =>
      logAt Crit [AnyString "during"; AnyString "db.DropTableIfExists";
                  AnyString "err"; AnyError e;
                  AnyString "msg"; AnyString ("error truncating table: " +:+ Error e)] ;;;
      ret (Some e)
  | None => ret None
  end.

Definition Truncate (tables : list (Model G)) : M G (option error) :=
  logAt Info [AnyString "msg"; AnyString "running db truncation"] ;;;
  let len := length tables in
  r <~ forRange tables (fun i =>
         table <~ index tables (len - i - 1) ;;
         truncateTable table) ;;
  match r with
  | Some e => ret (Some e)
  | None =>
      logAt Info [AnyString "msg"; AnyString "db truncation complete"] ;;;
      ret None
  end.

Definition ResetDB (tables : list (Model G)) : M G (option error) :=
  err <~ Truncate tables ;;
  match err with
  | Some e => ret (Some e)
  | None => AutoMigrate tables
  end.

End WithGorm.
End Part000.

(** ** Vocabulary of the orchestrator's properties *)

Section Orchestration.
Context {G : Gorm}.

(** One successful call per table, in the order of the list. *)
Definition succeeded (mk : Model G -> Call G) (ts : list (Model G))
    : list (Call G * option error) :=
  (fun t => (mk t, None)) <$> ts.

(** A pass over [ts] that calls [mk] on each table in turn and stops at
    the first error, which it returns. *)
Definition stopsAtFirstError (mk : Model G -> Call G) (ts : list (Model G))
    (out : Res (option error) * St G * list (Event G)) : Prop :=
  (result out = Val None /\ calls (trace out) = succeeded mk ts)
  \/ (exists pre t post e,
        ts = pre ++ t :: post
        /\ result out = Val (Some e)
        /\ calls (trace out) = succeeded mk pre ++ [(mk t, Some e)]).

(** The calls of one table's successful migration: its schema sync and,
    right after it, its hook when it has one. *)
Definition migrated (t : Model G) : list (Call G * option error) :=
  (CallAutoMigrate t, None) ::
  match asMigratable G t with
  | Some _ => [(CallAfterMigrate t, None)]
  | None => []
  end.

Definition allMigrated (ts : list (Model G)) : list (Call G * option error) :=
  ts ≫= migrated.

(** A migration over [ts] in the order of the list that stops at the
    first failing schema sync or hook and returns its error. *)
Definition migratesInOrder (ts : list (Model G))
    (out : Res (option error) * St G * list (Event G)) : Prop :=
  (result out = Val None /\ calls (trace out) = allMigrated ts)
  \/ (exists pre t post e,
        ts = pre ++ t :: post
        /\ result out = Val (Some e)
        /\ (calls (trace out) = allMigrated pre ++ [(CallAutoMigrate t, Some e)]
            \/ (is_Some (asMigratable G t)
                /\ calls (trace out) =
                     allMigrated pre ++
                     [(CallAutoMigrate t, None); (CallAfterMigrate t, Some e)]))).

(** Two runs that answer alike, leave the same database and made the
    same calls; they may differ in what they logged. *)
Definition sameEffect {A} (o1 o2 : Res A * St G * list (Event G)) : Prop :=
  result o1 = result o2 /\ final o1 = final o2 /\ calls (trace o1) = calls (trace o2).

(** Whether a call is a statement execution, a drop. *)
Definition isExec (c : Call G * option error) : bool :=
  match c.1 with CallExec _ => true | _ => false end.
Definition isDrop (c : Call G * option error) : bool :=
  match c.1 with CallDropTableIfExists _ => true | _ => false end.

End Orchestration.

(** The two variants of a function differ in what they do to the
    database on this input. *)
Definition variantsDiffer {G A} (o1 o2 : Res A * St G * list (Event G)) : Prop :=
  calls (trace o1) <> calls (trace o2).

(** ** A test double for the ORM

    It answers every call from a script and keeps a journal of the
    operations it was asked to perform. *)

Module Double.

Record Table : Type := mkTable {
  name : string;
  syncAnswer : option error;            (* what schema sync returns *)
  hookAnswer : option (option error);   (* what AfterMigrate returns, when there is one *)
  dropAnswer : option error;            (* what drop-if-exists returns *)
  columns : list Field
}.

Record Script : Type := mkScript {
  execAnswer : option error;
  foreignKeyAnswer : option error;
  rollbackAnswer : option error;
  commitAnswer : option error
}.

Definition quote (s : string) : string := dq +:+ s +:+ dq.

Definition gorm (sc : Script) : Gorm := {|
  St := list string;
  Model := Table;
  TypeName := fun t => "*models." +:+ name t;
  asMigratable := fun t =>
    match hookAnswer t with
    | Some r => Some (fun j => (r, j ++ ["after-migrate " +:+ name t]))
    | None => None
    end;
  TableName := name;
  QuotedTableName := fun t => quote (name t);
  Quote := quote;
  Fields := columns;
  db_AddForeignKey := fun t column table _ _ j =>
    (foreignKeyAnswer sc, j ++ ["add-foreign-key " +:+ name t +:+ "." +:+ column]);
  db_Exec := fun sql j => (execAnswer sc, j ++ [sql]);
  db_AutoMigrate := fun t j => (syncAnswer t, j ++ ["auto-migrate " +:+ name t]);
  db_DropTableIfExists := fun t j => (dropAnswer t, j ++ ["drop " +:+ name t]);
  db_Begin := fun j => j ++ ["begin"];
  db_Rollback := fun j => (rollbackAnswer sc, j ++ ["rollback"]);
  db_Commit := fun j => (commitAnswer sc, j ++ ["commit"])
|}.

(** A script in which everything succeeds. *)
Definition quiet : Script := mkScript None None None None.

(** A table on which everything succeeds and that has no hook. *)
Definition plain (n : string) : Table := mkTable n None None None [].

(** A table with a hook answering [r]. *)
Definition hooked (n : string) (r : option error) : Table := mkTable n None (Some r) None [].

(** Scripts in which the database reports that the object exists. *)
Definition indexTaken : Script :=
  mkScript
    (Some (ForeignError 7
       ("pq: relation " +:+ dq +:+ "idx_users_email" +:+ dq +:+ " already exists")))
    None None None.

Definition foreignKeyTaken : Script :=
  mkScript None
    (Some (ForeignError 8
       ("pq: constraint " +:+ dq +:+ "orders_user_id_users_id_foreign" +:+ dq +:+
        " for relation " +:+ dq +:+ "orders" +:+ dq +:+ " already exists")))
    None None.

(** A script in which the rollback itself fails. *)
Definition rollbackFails : Script :=
  mkScript None None (Some (ForeignError 9 "sql: transaction has already been rolled back")) None.

(** Units of work: one that returns [r], one that panics with [v]. *)
Definition returning (r : option error) (j : list string) : Res (option error) * list string :=
  (Val r, j ++ ["work"]).


Definition boom : error := ForeignError 1 "insert failed".

(** Entities for the update map. *)
Definition entity : Table :=
  mkTable "users" None None None [mkField "id" (AnyInt 1); mkField "name" (AnyString "x")].

(** An entity with two fields stored under one column name, as a struct
    that declares [ID] and also embeds a struct declaring [ID]. *)
Definition twins : Table :=
  mkTable "users" None None None [mkField "id" (AnyInt 1); mkField "id" (AnyInt 2)].

(** Three tables in dependency order; the third one's hook fails. *)
Definition hookError : error := ForeignError 2 "pq: constraint violated".
Definition syncError : error := ForeignError 3 "pq: permission denied".

Definition tableA : Table := plain "A".
Definition tableB : Table := hooked "B" None.
Definition tableC : Table := hooked "C" (Some hookError).
Definition tableD : Table := plain "D".

(** A table whose schema sync fails, and one that cannot be dropped. *)
Definition tableUnsyncable : Table := mkTable "U" (Some syncError) (Some None) None [].

(** The calls the double with the quiet script receives. *)
Definition sync (t : Table) (r : option error) : Call (gorm quiet) * option error :=
  (@CallAutoMigrate (gorm quiet) t, r).
Definition hook (t : Table) (r : option error) : Call (gorm quiet) * option error :=
  (@CallAfterMigrate (gorm quiet) t, r).

End Double.

(** ** Vocabulary of the log trail and of the loops *)

(** [keyvals] of a log line alternate keys and values; the value under
    the key [k]. *)
Fixpoint keyval (k : string) (kvs : list any) : option any :=
  match kvs with
  | AnyString k' :: v :: rest => if String.eqb k' k then Some v else keyval k rest
  | _ :: _ :: rest => keyval k rest
  | _ => None
  end.

Section Trail.
Context {G : Gorm}.

(** For each line written at critical level, what it carries as [err]. *)
Definition critErrors (t : list (Event G)) : list (option any) :=
  omap (fun e => match e with
                 | EvLog Crit kvs => Some (keyval "err" kvs)
                 | _ => None
                 end) t.

(** For each line written at informational level, its [msg]. *)
Definition infoMessages (t : list (Event G)) : list (option any) :=
  omap (fun e => match e with
                 | EvLog Info kvs => Some (keyval "msg" kvs)
                 | _ => None
                 end) t.

(** For each line written at debug level, the [table] it names. *)
Definition announced (t : list (Event G)) : list (option any) :=
  omap (fun e => match e with
                 | EvLog Debug kvs => Some (keyval "table" kvs)
                 | _ => None
                 end) t.

(** The type name of the table a call is about. *)
Definition callTable (c : Call G * option error) : option any :=
  match c.1 with
  | CallAutoMigrate t | CallAfterMigrate t | CallDropTableIfExists t =>
      Some (AnyString (TypeName G t))
  | _ => None
  end.

(** A run that did not panic and wrote one critical line, carrying the
    error it returns, when it returns one, and none when it returns nil. *)
Definition reportsItsError (out : Res (option error) * St G * list (Event G)) : Prop :=
  match result out with
  | Val None => critErrors (trace out) = []
  | Val (Some e) => critErrors (trace out) = [Some (AnyError e)]
  | Panic _ => False
  end.

(** A run that opened with the line [start] and closed with the line
    [finish] exactly when it returns nil. *)
Definition bracketedBy (start finish : string)
    (out : Res (option error) * St G * list (Event G)) : Prop :=
  infoMessages (trace out) =
  Some (AnyString start) ::
  match result out with
  | Val None => [Some (AnyString finish)]
  | _ => []
  end.

(** How a loop [for _, x := range xs] with early return runs: it stops
    at the first element whose body returns an error or panics. *)
Inductive Runs {A} (body : A -> M G (option error))
    : list A -> St G -> Res (option error) * St G * list (Event G) -> Prop :=
| Runs_nil s : Runs body [] s (Val None, s, [])
| Runs_return x xs s e s1 t1 :
    body x s = (Val (Some e), s1, t1) ->
    Runs body (x :: xs) s (Val (Some e), s1, t1)
| Runs_panic x xs s v s1 t1 :
    body x s = (Panic v, s1, t1) ->
    Runs body (x :: xs) s (Panic v, s1, t1)
| Runs_next x xs s s1 t1 r s2 t2 :
    body x s = (Val None, s1, t1) ->
    Runs body xs s1 (r, s2, t2) ->
    Runs body (x :: xs) s (r, s2, t1 ++ t2).


End Trail.

(** One run after another, the second only when the first returned nil:
    [if err := a(); err != nil { return err }; return b()]. *)
Definition andThen {G} (a b : M G (option error)) : M G (option error) :=
  err <~ a ;;
  match err with
  | Some e => ret (Some e)
  | None => b
  end.

(** Further inputs for the test double. *)
Module Stage.

(** An error carrying the already-exists message of an index inside a
    longer message. *)
Definition wrappedIndexTaken : Double.Script :=
  Double.mkScript
    (Some (ForeignError 11
       ("pq: relation " +:+ dq +:+ "idx_users_email" +:+ dq +:+ " already exists" +:+
        " (SQLSTATE 42P07)")))
    None None None.


(** The entity of the update map with its fields listed the other way. *)
Definition entityReordered : Double.Table :=
  Double.mkTable "users" None None None
    [mkField "name" (AnyString "x"); mkField "id" (AnyInt 1)].

End Stage.

(** * Properties *)

(** ** Shape of the monad *)

Section MonadFacts.
Context {G : Gorm}.

Lemma bind_val {A B} (m : M G A) (k : A -> M G B) s a s1 t1 :
  m s = (Val a, s1, t1) ->
  bind m k s = ((k a s1).1.1, (k a s1).1.2, t1 ++ (k a s1).2).
Proof. unfold bind. intros ->. by destruct (k a s1) as [[r s2] t2]. Qed.


Lemma calls_app (t1 t2 : list (Event G)) : calls (t1 ++ t2) = calls t1 ++ calls t2.
Proof. unfold calls. apply omap_app. Qed.

End MonadFacts.

(** ** The pattern [keyMatcher] *)

Module RegexpFacts.
Import Regexp.

Lemma ReplaceAllString_cons c t :
  ReplaceAllString (String c t) =
  match keyMatcher_at (String c t) with
  | Some (g, rest) => "_" +:+ g +:+ ReplaceAllString rest
  | None => String c (ReplaceAllString t)
  end.
Proof.
  simp ReplaceAllString. unfold keyMatcher_step.
  enough (Hgen : forall o (e : keyMatcher_at (String c t) = o),
             ReplaceAllString_unfold_clause_2 c t (exist _ o e) =
             match o with
             | Some (g, rest) => "_" +:+ g +:+ ReplaceAllString rest
             | None => String c (ReplaceAllString t)
             end) by apply Hgen.
  intros [[g rest]|] e; reflexivity.
Qed.

Lemma append_nil_l s : EmptyString +:+ s = s.
Proof. reflexivity. Qed.

Lemma append_cons a s t : String a s +:+ t = String a (s +:+ t).
Proof. reflexivity. Qed.

Lemma append_nil_r s : s +:+ EmptyString = s.
Proof. induction s as [|a s IH]; [done|]. by rewrite append_cons, IH. Qed.

Lemma spanNotRParen_app col rest :
  occurs ")" col = false ->
  spanNotRParen (col +:+ String ")" rest) = (col, String ")" rest).
Proof.
  induction col as [|a col IH]; [done|].
  intros [Ha Hc]%orb_false_elim.
  rewrite append_cons. cbn [spanNotRParen]. rewrite Ha, IH; done.
Qed.

Lemma keyMatcher_at_reference col :
  col <> EmptyString ->
  occurs ")" col = false ->
  keyMatcher_at (" (" +:+ col +:+ ")") = Some (col, EmptyString).
Proof.
  intros Hcol Hnp. unfold keyMatcher_at.
  rewrite !append_cons, append_nil_l. simpl.
  rewrite spanNotRParen_app by done.
  destruct col; [done|]. reflexivity.
Qed.

(** No match starts inside a text free of [(], except at a final space
    that the following text completes. *)
Lemma keyMatcher_at_no_lparen a tbl col :
  occurs "(" (String a tbl) = false ->
  keyMatcher_at (String a tbl +:+ " (" +:+ col +:+ ")") = None.
Proof.
  simpl. intros [Ha Ht]%orb_false_elim.
  unfold keyMatcher_at.
  assert (optSpaceLParen (String a tbl +:+ " (" +:+ col +:+ ")") = None) as ->; [|done].
  rewrite append_cons. unfold optSpaceLParen.
  destruct tbl as [|b tbl].
  - rewrite append_nil_l, !append_cons.
    destruct a as [[] [] [] [] [] [] [] []]; try reflexivity; discriminate.
  - rewrite append_cons. simpl in Ht. apply orb_false_elim in Ht as [Hb _].
    destruct a as [[] [] [] [] [] [] [] []]; try reflexivity; try discriminate.
    destruct b as [[] [] [] [] [] [] [] []]; try reflexivity; discriminate.
Qed.

(** A text free of [(] is copied up to the reference that follows it. *)
Lemma ReplaceAllString_reference tbl col :
  occurs "(" tbl = false ->
  col <> EmptyString ->
  occurs ")" col = false ->
  ReplaceAllString (tbl +:+ " (" +:+ col +:+ ")") = tbl +:+ "_" +:+ col.
Proof.
  intros Htbl Hcol Hnp.
  induction tbl as [|a tbl IH].
  - rewrite append_nil_l.
    pose proof (keyMatcher_at_reference col Hcol Hnp) as Hm.
    rewrite !append_cons, append_nil_l in Hm |- *.
    rewrite ReplaceAllString_cons, Hm.
    simp ReplaceAllString. by rewrite append_nil_r, append_nil_l.
  - pose proof (keyMatcher_at_no_lparen a tbl col Htbl) as Hn.
    rewrite append_cons in Hn |- *.
    rewrite ReplaceAllString_cons, Hn, IH; [done|].
    simpl in Htbl. by apply orb_false_elim in Htbl as [_ ?].
Qed.

(** The pattern on a few descriptions. *)
Example ReplaceAllString_users_id :
  ReplaceAllString "users (id)" = "users_id".
Proof. reflexivity. Qed.

Example ReplaceAllString_no_space :
  ReplaceAllString "users(id)" = "users_id".
Proof. reflexivity. Qed.

Example ReplaceAllString_no_reference :
  ReplaceAllString "users" = "users" /\ ReplaceAllString "users ()" = "users ()".
Proof. split; reflexivity. Qed.

Example ReplaceAllString_two_references :
  ReplaceAllString "a (b) (c)" = "a_b_c".
Proof. reflexivity. Qed.

Example ReplaceAllString_unclosed :
  ReplaceAllString "users (id" = "users_id".
Proof. reflexivity. Qed.

End RegexpFacts.

(** ** dbutils.go: the idempotent helpers *)

(** Unfolds one run of the monad down to pairs. *)
Ltac run_monad :=
  unfold result, final, trace, bind, call, emit, logAt, ret, panic in *; simpl in *.

Module DbutilsFacts.
Import Regexp Dbutils RegexpFacts.

Section WithGorm.
Context (G : Gorm).

(** C3: each of the three helpers returns nil and writes one log line
    exactly when the database error's message equals the helper's
    already-exists message; any other error is returned as it is; a
    successful execution returns nil and logs nothing. *)
Theorem Ensure_classifies_by_message
    (model : Model G) (sourceTable column table onDelete onUpdate : string)
    (name constraint : string) (unique : bool) (s : St G) :
  classifies (foreignKeyExistsMsg sourceTable column table)
    (db_AddForeignKey G model column table onDelete onUpdate s).1
    (EnsureForeignKey G model sourceTable column table onDelete onUpdate s)
  /\ classifies (constraintExistsMsg name (TableName G model))
       (db_Exec G (constraintQuery G model name constraint) s).1
       (EnsureConstraint G model name constraint s)
  /\ classifies (indexExistsMsg name)
       (db_Exec G (indexQuery G name constraint unique) s).1
       (EnsureIndex G model name constraint unique s).
Proof.
  unfold classifies, EnsureForeignKey, EnsureConstraint, EnsureIndex.
  repeat split.
  all: run_monad.
  all: repeat match goal with
       | |- context [db_AddForeignKey ?a ?b ?c ?d ?e ?f ?g] =>
           destruct (db_AddForeignKey a b c d e f g) as [[e0|] s1]; simpl
       | |- context [db_Exec ?a ?b ?c] =>
           destruct (db_Exec a b c) as [[e0|] s1]; simpl
       | |- context [String.eqb ?a ?b] =>
           destruct (String.eqb_spec a b); simpl
       end.
  all: try tauto.
  all: repeat split; try done; try (intros [? ?]; done).
Qed.

(** C9: whatever the model, the index definition and the unique flag, an
    execution error whose message is [pq: relation "<name>" already
    exists] makes [EnsureIndex] return nil; the expected message is built
    from the name alone. *)
Theorem EnsureIndex_name_only
    (model : Model G) (name constraint : string) (unique : bool)
    (s s1 : St G) (e : error) :
  db_Exec G (indexQuery G name constraint unique) s = (Some e, s1) ->
  Error e = "pq: relation " +:+ dq +:+ name +:+ dq +:+ " already exists" ->
  EnsureIndex G model name constraint unique s =
    (Val None, s1,
     [EvCall (CallExec (indexQuery G name constraint unique)) (Some e);
      EvScopeLog ("Index appears to already exist: " +:+ Error e)]).
Proof.
  intros Hexec Hmsg. unfold EnsureIndex. run_monad.
  rewrite Hexec. simpl. unfold indexExistsMsg.
  rewrite <- Hmsg, String.eqb_refl. reflexivity.
Qed.

(** C6: for a description [table (column)] the fragment is
    [table_column], the expected message names the constraint
    [<sourceTable>_<column>_<table_column>_foreign] on relation
    [<sourceTable>], and an error with that message is what
    [EnsureForeignKey] swallows. *)
Theorem EnsureForeignKey_expected_message
    (model : Model G) (sourceTable column tbl col onDelete onUpdate : string)
    (s s1 : St G) (e : error) :
  occurs "(" tbl = false ->
  col <> EmptyString ->
  occurs ")" col = false ->
  let table := tbl +:+ " (" +:+ col +:+ ")" in
  let expected :=
    "pq: constraint " +:+ dq +:+ sourceTable +:+ "_" +:+ column +:+ "_" +:+
    (tbl +:+ "_" +:+ col) +:+ "_foreign" +:+ dq +:+ " for relation " +:+ dq +:+
    sourceTable +:+ dq +:+ " already exists" in
  tableFragmentOf table = tbl +:+ "_" +:+ col
  /\ foreignKeyExistsMsg sourceTable column table = expected
  /\ (db_AddForeignKey G model column table onDelete onUpdate s = (Some e, s1) ->
      (Error e = expected ->
       result (EnsureForeignKey G model sourceTable column table onDelete onUpdate s)
       = Val None)
      /\ (Error e <> expected ->
          result (EnsureForeignKey G model sourceTable column table onDelete onUpdate s)
          = Val (Some e))).
Proof.
  intros Htbl Hcol Hnp table expected.
  assert (Hfrag : tableFragmentOf table = tbl +:+ "_" +:+ col)
    by (apply ReplaceAllString_reference; done).
  assert (Hmsg : foreignKeyExistsMsg sourceTable column table = expected)
    by (unfold foreignKeyExistsMsg; rewrite Hfrag; done).
  split; [done|]. split; [done|].
  intros Hcall. unfold EnsureForeignKey. run_monad.
  rewrite Hcall. simpl. rewrite Hmsg.
  destruct (String.eqb_spec (Error e) expected); split; done.
Qed.

(** ** dbutils.go: the transactional wrapper *)

Lemma Transact_returned_error (f : UnitOfWork G) s e s1 :
  f (db_Begin G s) = (Val (Some e), s1) ->
  Transact G f s =
    (Val (Some e), (db_Rollback G s1).2,
     [EvCall CallBegin None; EvCall CallUnitOfWork (Some e);
      EvCall CallRollback (db_Rollback G s1).1] ++ rollbackReport (db_Rollback G s1).1).
Proof.
  intros Hf. unfold Transact, deferred, runUnitOfWork. run_monad.
  rewrite Hf. simpl.
  destruct (db_Rollback G s1) as [[e'|] s2]; reflexivity.
Qed.

Lemma Transact_returned_nil (f : UnitOfWork G) s s1 :
  f (db_Begin G s) = (Val None, s1) ->
  Transact G f s =
    (Val (db_Commit G s1).1, (db_Commit G s1).2,
     [EvCall CallBegin None; EvCall CallUnitOfWork None;
      EvCall CallCommit (db_Commit G s1).1]).
Proof.
  intros Hf. unfold Transact, deferred, runUnitOfWork. run_monad.
  rewrite Hf. simpl.
  destruct (db_Commit G s1) as [r s2]; reflexivity.
Qed.

Lemma Transact_panicked (f : UnitOfWork G) s r s1 :
  f (db_Begin G s) = (Panic r, s1) ->
  Transact G f s =
    (Val (Some (recoveredError r)), (db_Rollback G s1).2,
     [EvCall CallBegin None; EvPanicked CallUnitOfWork r;
      EvPrintln [AnyError (recoveredError r)]; EvPrintStack;
      EvCall CallRollback (db_Rollback G s1).1] ++ rollbackReport (db_Rollback G s1).1).
Proof.
  intros Hf. unfold Transact, deferred, runUnitOfWork. run_monad.
  rewrite Hf. simpl.
  destruct (db_Rollback G s1) as [[e'|] s2]; destruct r; reflexivity.
Qed.

Lemma rollbackReport_counts r :
  commits G (rollbackReport r) = 0 /\ rollbacks G (rollbackReport r) = 0.
Proof. by destruct r. Qed.

(** C1: a unit of work that returns the error [e] gets a rollback (whose
    own failure is only printed) and [Transact] returns [e]; one that
    returns nil gets one commit and no rollback, and [Transact] returns
    what the commit returned; and whatever the unit of work does, one of
    commit and rollback happens, once. *)
Theorem Transact_commit_xor_rollback (f : UnitOfWork G) (s : St G) :
  let tx := db_Begin G s in
  let out := Transact G f s in
  (forall e s1, f tx = (Val (Some e), s1) ->
     result out = Val (Some e)
     /\ trace out =
          [EvCall CallBegin None; EvCall CallUnitOfWork (Some e);
           EvCall CallRollback (db_Rollback G s1).1]
          ++ rollbackReport (db_Rollback G s1).1
     /\ rollbacks G (trace out) = 1 /\ commits G (trace out) = 0)
  /\ (forall s1, f tx = (Val None, s1) ->
        result out = Val (db_Commit G s1).1
        /\ commits G (trace out) = 1 /\ rollbacks G (trace out) = 0)
  /\ commits G (trace out) + rollbacks G (trace out) = 1.
Proof.
  intros tx out. subst tx out.
  split; [|split].
  - intros e s1 Hf. rewrite (Transact_returned_error f s e s1 Hf).
    unfold result, trace. simpl.
    by destruct (db_Rollback G s1) as [[e'|] s2].
  - intros s1 Hf. rewrite (Transact_returned_nil f s s1 Hf). done.
  - destruct (f (db_Begin G s)) as [[[e|]|r] s1] eqn:Hf.
    + rewrite (Transact_returned_error f s e s1 Hf).
      by destruct (db_Rollback G s1) as [[e'|] s2].
    + by rewrite (Transact_returned_nil f s s1 Hf).
    + rewrite (Transact_panicked f s r s1 Hf).
      by destruct (db_Rollback G s1) as [[e'|] s2].
Qed.


(** ** dbutils.go: the update map *)

Lemma append_inj_r (p a b : string) : p +:+ a = p +:+ b -> a = b.
Proof.
  induction p as [|c p IH]; [done|].
  rewrite !append_cons. intros [= H]. by apply IH.
Qed.

(** The loop of [ToUpdateColumnsMap] started from the map [m]. *)
Lemma fill_snoc (prefix : string) (m : gmap string any) (fs : list Field) (f : Field) :
  foldl (setColumn prefix) m (fs ++ [f]) =
  <[prefix +:+ DBName f := FieldValue f]> (foldl (setColumn prefix) m fs).
Proof. by rewrite foldl_app. Qed.

Lemma fill_origin (prefix : string) (fs : list Field) k x :
  foldl (setColumn prefix) ∅ fs !! k = Some x ->
  exists f, f ∈ fs /\ k = prefix +:+ DBName f /\ x = FieldValue f.
Proof.
  induction fs as [|f fs IH] using rev_ind; [simpl; by rewrite lookup_empty|].
  rewrite fill_snoc.
  destruct (decide (prefix +:+ DBName f = k)) as [<-|Hk].
  - rewrite lookup_insert_eq. intros [= <-]. exists f. set_solver.
  - rewrite lookup_insert_ne by done. intros (g & ? & ? & ?)%IH.
    exists g. set_solver.
Qed.

Lemma fill_last_wins (prefix : string) (l1 l2 : list Field) (f : Field) :
  DBName f ∉ DBName <$> l2 ->
  foldl (setColumn prefix) ∅ (l1 ++ f :: l2)
    !! (prefix +:+ DBName f) = Some (FieldValue f).
Proof.
  induction l2 as [|g l2 IH] using rev_ind; intros Hnot.
  - by rewrite fill_snoc, lookup_insert_eq.
  - rewrite fmap_app in Hnot. simpl in Hnot.
    change (l1 ++ f :: l2 ++ [g]) with (l1 ++ (f :: l2) ++ [g]).
    rewrite app_assoc, fill_snoc.
    rewrite lookup_insert_ne.
    + apply IH. intros Hin. apply Hnot, elem_of_app. by left.
    + intros Heq%append_inj_r. apply Hnot, elem_of_app. right.
      rewrite Heq. by apply list_elem_of_singleton.
Qed.

Lemma fill_distinct (prefix : string) (fs : list Field) :
  NoDup (DBName <$> fs) ->
  oneEntryPerField prefix fs
    (foldl (setColumn prefix) ∅ fs).
Proof.
  intros Hnd. split.
  - induction fs as [|f fs IH] using rev_ind; [done|].
    rewrite fmap_app in Hnd. apply NoDup_app in Hnd as (Hfs & Hf & _).
    rewrite fill_snoc, length_app. simpl.
    rewrite map_size_insert_None; [rewrite IH by done; lia|].
    destruct (_ !! _) as [x|] eqn:Hx; [|done].
    apply fill_origin in Hx as (g & Hg & Heq%append_inj_r & _).
    destruct (Hf (DBName f)); [|set_solver].
    rewrite Heq. by apply list_elem_of_fmap_2.
  - intros f (l1 & l2 & ->)%list_elem_of_split.
    apply fill_last_wins.
    rewrite fmap_app in Hnd. apply NoDup_app in Hnd as (_ & _ & Hnd).
    simpl in Hnd. by apply NoDup_cons in Hnd as [? _].
Qed.

(** C8, amended: every entry of the map comes from a field, under the
    prefix followed by the field's column name; a field's value is in the
    map under its key unless a later field has the same column name; when
    the column names are pairwise distinct the map has one entry per
    field; and the fields [id: 1], [name: x] with prefix [new_] give
    [new_id: 1], [new_name: x] and nothing else. *)
Theorem ToUpdateColumnsMap_entries (prefix : string) (structval : Model G) :
  let fs := Fields G structval in
  let r := ToUpdateColumnsMap G prefix structval in
  (forall k x, r !! k = Some x ->
     exists f, f ∈ fs /\ k = prefix +:+ DBName f /\ x = FieldValue f)
  /\ (forall l1 f l2, fs = l1 ++ f :: l2 -> DBName f ∉ DBName <$> l2 ->
        r !! (prefix +:+ DBName f) = Some (FieldValue f))
  /\ (NoDup (DBName <$> fs) -> oneEntryPerField prefix fs r)
  /\ (prefix = "new_" ->
        fs = [mkField "id" (AnyInt 1); mkField "name" (AnyString "x")] ->
        r = <["new_id" := AnyInt 1]> (<["new_name" := AnyString "x"]> (∅ : gmap string any))).
Proof.
  intros fs r. subst fs r. unfold ToUpdateColumnsMap.
  split; [|split; [|split]].
  - apply fill_origin.
  - intros l1 f l2 -> Hnot. by apply fill_last_wins.
  - apply fill_distinct.
  - intros -> ->. simpl. unfold setColumn. simpl. by rewrite insert_insert_ne.
Qed.

End WithGorm.

(** *** The helpers on the test double *)

Lemma Ensure_classifies_by_message_witness :
  result (EnsureIndex (Double.gorm Double.indexTaken) (Double.plain "users")
            "idx_users_email" "users(email)" true []) = Val None
  /\ result (EnsureConstraint (Double.gorm Double.indexTaken) (Double.plain "users")
               "users_age_check" "CHECK (age > 0)" [])
     = Val (Double.execAnswer Double.indexTaken).
Proof.
  destruct (Ensure_classifies_by_message (Double.gorm Double.indexTaken)
              (Double.plain "users") "orders" "user_id" "users (id)"
              "CASCADE" "CASCADE" "idx_users_email" "users(email)" true [])
    as (_ & _ & [[_ Hyes] _]).
  destruct (Ensure_classifies_by_message (Double.gorm Double.indexTaken)
              (Double.plain "users") "orders" "user_id" "users (id)"
              "CASCADE" "CASCADE" "users_age_check" "CHECK (age > 0)" true [])
    as (_ & [_ Hno] & _).
  split.
  - apply Hyes. reflexivity.
  - apply Hno. vm_compute. discriminate.
Defined.

Lemma EnsureIndex_name_only_witness :
  result (EnsureIndex (Double.gorm Double.indexTaken) (Double.plain "users")
            "idx_users_email" "users(email)" false []) = Val None.
Proof.
  rewrite (EnsureIndex_name_only (Double.gorm Double.indexTaken) (Double.plain "users")
             "idx_users_email" "users(email)" false []
             [indexQuery (Double.gorm Double.indexTaken) "idx_users_email" "users(email)" false]
             (ForeignError 7
                ("pq: relation " +:+ dq +:+ "idx_users_email" +:+ dq +:+ " already exists")));
    reflexivity.
Defined.

Lemma EnsureForeignKey_expected_message_witness :
  tableFragmentOf "users (id)" = "users_id"
  /\ result (EnsureForeignKey (Double.gorm Double.foreignKeyTaken) (Double.plain "orders")
               "orders" "user_id" "users (id)" "CASCADE" "CASCADE" []) = Val None.
Proof.
  destruct (EnsureForeignKey_expected_message (Double.gorm Double.foreignKeyTaken)
              (Double.plain "orders") "orders" "user_id" "users" "id" "CASCADE" "CASCADE"
              [] ["add-foreign-key orders.user_id"]
              (ForeignError 8
                 ("pq: constraint " +:+ dq +:+ "orders_user_id_users_id_foreign" +:+ dq +:+
                  " for relation " +:+ dq +:+ "orders" +:+ dq +:+ " already exists")))
    as (Hfrag & _ & Hrun); [reflexivity | discriminate | reflexivity |].
  split; [exact Hfrag|].
  apply Hrun; reflexivity.
Defined.

Lemma Transact_commit_xor_rollback_witness :
  result (Transact (Double.gorm Double.rollbackFails)
            (Double.returning (Some Double.boom)) []) = Val (Some Double.boom)
  /\ result (Transact (Double.gorm Double.quiet) (Double.returning None) []) = Val None.
Proof.
  split.
  - destruct (Transact_commit_xor_rollback (Double.gorm Double.rollbackFails)
                (Double.returning (Some Double.boom)) []) as (Herr & _ & _).
    apply (Herr Double.boom ["begin"; "work"]). reflexivity.
  - destruct (Transact_commit_xor_rollback (Double.gorm Double.quiet)
                (Double.returning None) []) as (_ & Hok & _).
    apply (Hok ["begin"; "work"]). reflexivity.
Defined.


(** C8 as stated fails when two fields share a column name: the map then
    has one entry for the two of them, holding the later value. *)
Lemma ToUpdateColumnsMap_shared_column :
  ~ oneEntryPerField "new_" (Fields (Double.gorm Double.quiet) Double.twins)
      (ToUpdateColumnsMap (Double.gorm Double.quiet) "new_" Double.twins).
Proof.
  intros [Hsize _]. vm_compute in Hsize. discriminate.
Qed.

Lemma ToUpdateColumnsMap_entries_witness :
  ToUpdateColumnsMap (Double.gorm Double.quiet) "new_" Double.entity
  = <["new_id" := AnyInt 1]> (<["new_name" := AnyString "x"]> (∅ : gmap string any))
  /\ oneEntryPerField "new_" (Fields (Double.gorm Double.quiet) Double.entity)
       (ToUpdateColumnsMap (Double.gorm Double.quiet) "new_" Double.entity).
Proof.
  destruct (ToUpdateColumnsMap_entries (Double.gorm Double.quiet) "new_" Double.entity)
    as (_ & _ & Hdistinct & Hex).
  split.
  - apply Hex; reflexivity.
  - apply Hdistinct. simpl. apply NoDup_cons. split.
    + apply not_elem_of_cons. split; [discriminate | apply not_elem_of_nil].
    + apply NoDup_singleton.
Defined.

End DbutilsFacts.

(** ** Loops *)

Section LoopFacts.
Context {G : Gorm}.

Lemma bind_ret_l {A B} (a : A) (k : A -> M G B) s : bind (ret a) k s = k a s.
Proof. unfold bind, ret. by destruct (k a s) as [[r s2] t2]. Qed.

Lemma bind_ext {A B} (m : M G A) (k1 k2 : A -> M G B) s :
  (forall a s', k1 a s' = k2 a s') -> bind m k1 s = bind m k2 s.
Proof.
  intros Hk. unfold bind. destruct (m s) as [[[a|v] s1] t1]; [|done].
  by rewrite Hk.
Qed.

(** A loop over a concatenation runs the second part only when the
    first part fell through. *)
Lemma forEach_app {A} (body : A -> M G (option error)) (l1 l2 : list A) s :
  forEach body (l1 ++ l2) s =
  match forEach body l1 s with
  | (Val None, s1, t1) =>
      ((forEach body l2 s1).1.1, (forEach body l2 s1).1.2, t1 ++ (forEach body l2 s1).2)
  | other => other
  end.
Proof.
  revert s. induction l1 as [|x l1 IH]; intros s; simpl.
  - unfold ret. by destruct (forEach body l2 s) as [[r s2] t2].
  - unfold bind. destruct (body x s) as [[[[e|]|v] s1] t1]; simpl; try done.
    rewrite IH. destruct (forEach body l1 s1) as [[[[e|]|v] s2] t2]; simpl; try done.
    by rewrite app_assoc.
Qed.

(** The loop of [Drop] and [Truncate]: walking the indices upwards while
    reading the slice at [len-i-1] visits the slice from its end. *)
Lemma forRangeFrom_reverse {A} (body : A -> M G (option error)) (xs : list A) (i n : nat) s :
  i + n = length xs ->
  forRangeFrom (fun i => x <~ index xs (length xs - i - 1) ;; body x) i n s =
  forEach body (reverse (take n xs)) s.
Proof.
  revert i s. induction n as [|n IH]; intros i s Hlen.
  - by rewrite take_0.
  - assert (Hidx : length xs - i - 1 = n) by lia.
    destruct (lookup_lt_is_Some_2 xs n) as [x Hx]; [lia|].
    rewrite (take_S_r _ _ _ Hx), reverse_snoc. simpl.
    unfold index at 1. rewrite Hidx, Hx.
    rewrite (bind_ext _ _ (fun r => match r with
                                     | Some e => ret (Some e)
                                     | None => forEach body (reverse (take n xs))
                                     end)).
    + unfold bind at 1 3. rewrite bind_ret_l. done.
    + intros [e|] s'; [done|]. apply IH. lia.
Qed.

Lemma forRange_reverse {A} (body : A -> M G (option error)) (xs : list A) s :
  forRange xs (fun i => x <~ index xs (length xs - i - 1) ;; body x) s =
  forEach body (reverse xs) s.
Proof.
  unfold forRange. rewrite forRangeFrom_reverse by lia. by rewrite firstn_all.
Qed.

End LoopFacts.

(** ** migrate.go and its near-duplicate: the orchestrator *)

Module MigrateFacts.

Section WithGorm.
Context (G : Gorm).

(** A loop whose body performs the operation [op] on the table, recorded
    as the call [mk], and leaves the function with the error if there is
    one. *)
Lemma forEach_stops (mk : Model G -> Call G)
    (op : Model G -> St G -> option error * St G)
    (body : Model G -> M G (option error)) :
  (forall t s, exists tr,
      body t s = (Val (op t s).1, (op t s).2, tr) /\ calls tr = [(mk t, (op t s).1)]) ->
  forall l s, stopsAtFirstError mk l (forEach body l s).
Proof.
  intros Hbody l. induction l as [|a l IH]; intros s.
  - left. done.
  - destruct (Hbody a s) as (tr & Hrun & Hcalls). simpl.
    rewrite (bind_val _ _ _ _ _ _ Hrun).
    destruct (op a s).1 as [e|].
    + right. exists [], a, l, e. unfold result, trace. simpl.
      by rewrite app_nil_r.
    + destruct (IH (op a s).2) as [[Hr Hc] | (pre & t & post & e & -> & Hr & Hc)].
      * left. unfold result, trace in *. simpl in *.
        by rewrite calls_app, Hcalls, Hc.
      * right. exists (a :: pre), t, post, e. unfold result, trace in *. simpl in *.
        by rewrite calls_app, Hcalls, Hc.
Qed.

(** Two such loops over the same operation have the same effect. *)
Lemma forEach_sameEffect (mk : Model G -> Call G)
    (op : Model G -> St G -> option error * St G)
    (b1 b2 : Model G -> M G (option error)) :
  (forall t s, exists tr,
      b1 t s = (Val (op t s).1, (op t s).2, tr) /\ calls tr = [(mk t, (op t s).1)]) ->
  (forall t s, exists tr,
      b2 t s = (Val (op t s).1, (op t s).2, tr) /\ calls tr = [(mk t, (op t s).1)]) ->
  forall l s, sameEffect (forEach b1 l s) (forEach b2 l s).
Proof.
  intros H1 H2 l. induction l as [|a l IH]; intros s; [done|].
  destruct (H1 a s) as (tr1 & Hrun1 & Hcalls1).
  destruct (H2 a s) as (tr2 & Hrun2 & Hcalls2).
  simpl. rewrite (bind_val _ _ _ _ _ _ Hrun1), (bind_val _ _ _ _ _ _ Hrun2).
  destruct (op a s).1 as [e|].
  - unfold sameEffect, result, final, trace. simpl.
    by rewrite !app_nil_r, Hcalls1, Hcalls2.
  - destruct (IH (op a s).2) as (Hr & Hf & Hc).
    unfold sameEffect, result, final, trace in *. simpl in *.
    by rewrite !calls_app, Hcalls1, Hcalls2, Hr, Hf, Hc.
Qed.

Lemma dropTable_run t s : exists tr,
  Migrate.dropTable G t s =
    (Val (db_DropTableIfExists G t s).1, (db_DropTableIfExists G t s).2, tr)
  /\ calls tr = [(CallDropTableIfExists t, (db_DropTableIfExists G t s).1)].
Proof.
  unfold Migrate.dropTable. run_monad.
  destruct (db_DropTableIfExists G t s) as [[e|] s1]; simpl; eauto.
Qed.

Lemma truncateTable_run t s : exists tr,
  Migrate.truncateTable G t s =
    (Val (db_Exec G (Migrate.truncateSQL G t) s).1,
     (db_Exec G (Migrate.truncateSQL G t) s).2, tr)
  /\ calls tr = [(CallExec (Migrate.truncateSQL G t),
                  (db_Exec G (Migrate.truncateSQL G t) s).1)].
Proof.
  unfold Migrate.truncateTable. run_monad.
  destruct (db_Exec G (Migrate.truncateSQL G t) s) as [[e|] s1]; simpl; eauto.
Qed.

Lemma part000_truncateTable_run t s : exists tr,
  Part000.truncateTable G t s =
    (Val (db_DropTableIfExists G t s).1, (db_DropTableIfExists G t s).2, tr)
  /\ calls tr = [(CallDropTableIfExists t, (db_DropTableIfExists G t s).1)].
Proof.
  unfold Part000.truncateTable. run_monad.
  destruct (db_DropTableIfExists G t s) as [[e|] s1]; simpl; eauto.
Qed.

(** A destructive function: its two boundary lines around the loop. *)
Lemma bracketed_run (start done_ : list any) (loop : M G (option error)) s :
  (logAt Info start ;;;
   r <~ loop ;;
   match r with
   | Some e => ret (Some e)
   | None => logAt Info done_ ;;; ret None
   end) s =
  match loop s with
  | (Val None, s1, tr) => (Val None, s1, EvLog Info start :: tr ++ [EvLog Info done_])
  | (other, s1, tr) => (other, s1, EvLog Info start :: tr)
  end.
Proof.
  run_monad. destruct (loop s) as [[[[e|]|v] s1] tr]; simpl; try done.
  by rewrite app_nil_r.
Qed.

Lemma calls_bracketed (start done_ : list any) (tr : list (Event G)) :
  calls (EvLog Info start :: tr ++ [EvLog Info done_]) = calls tr
  /\ calls (EvLog Info start :: tr) = calls tr.
Proof.
  split; [|done].
  change (EvLog Info start :: tr ++ [EvLog Info done_])
    with ([EvLog Info start] ++ tr ++ [EvLog Info done_]).
  rewrite !calls_app. simpl. by rewrite app_nil_r.
Qed.

(** Putting the boundary lines around a run changes neither its result,
    nor the database, nor the calls. *)
Lemma bracketed_sameEffect (start done_ : list any) (loop : M G (option error)) s :
  sameEffect
    ((logAt Info start ;;;
      r <~ loop ;;
      match r with
      | Some e => ret (Some e)
      | None => logAt Info done_ ;;; ret None
      end) s)
    (loop s).
Proof.
  rewrite bracketed_run.
  destruct (calls_bracketed start done_ (loop s).2) as [Hc1 Hc2].
  destruct (loop s) as [[[[e|]|v] s1] tr]; unfold sameEffect, result, final, trace;
    simpl in *; done.
Qed.

Lemma stops_sameEffect mk (l : list (Model G)) o1 o2 :
  sameEffect o1 o2 -> stopsAtFirstError mk l o2 -> stopsAtFirstError mk l o1.
Proof.
  intros (Hr & _ & Hc). unfold stopsAtFirstError. rewrite Hr, Hc. done.
Qed.


Lemma sameEffect_trans {A} (o1 o2 o3 : Res A * St G * list (Event G)) :
  sameEffect o1 o2 -> sameEffect o2 o3 -> sameEffect o1 o3.
Proof. intros (? & ? & ?) (? & ? & ?). repeat split; congruence. Qed.

Lemma sameEffect_sym {A} (o1 o2 : Res A * St G * list (Event G)) :
  sameEffect o1 o2 -> sameEffect o2 o1.
Proof. intros (? & ? & ?). repeat split; congruence. Qed.

Lemma Drop_sameEffect tables s :
  sameEffect (Migrate.Drop G tables s)
    (forEach (Migrate.dropTable G) (reverse tables) s).
Proof.
  rewrite <- forRange_reverse. unfold Migrate.Drop. apply bracketed_sameEffect.
Qed.

Lemma Truncate_sameEffect tables s :
  sameEffect (Migrate.Truncate G tables s)
    (forEach (Migrate.truncateTable G) (reverse tables) s).
Proof.
  rewrite <- forRange_reverse. unfold Migrate.Truncate. apply bracketed_sameEffect.
Qed.

Lemma part000_Truncate_sameEffect tables s :
  sameEffect (Part000.Truncate G tables s)
    (forEach (Part000.truncateTable G) (reverse tables) s).
Proof.
  rewrite <- forRange_reverse. unfold Part000.Truncate. apply bracketed_sameEffect.
Qed.

Lemma AutoMigrate_sameEffect tables s :
  sameEffect (Migrate.AutoMigrate G tables s)
    (forEach (Migrate.migrateTable G) tables s).
Proof. unfold Migrate.AutoMigrate. apply bracketed_sameEffect. Qed.

(** One table's migration, case by case. *)
Lemma migrateTable_run t s :
  let sync := db_AutoMigrate G t s in
  exists tr,
    match sync.1, asMigratable G t with
    | Some e, _ =>
        Migrate.migrateTable G t s = (Val (Some e), sync.2, tr)
        /\ calls tr = [(CallAutoMigrate t, Some e)]
    | None, None =>
        Migrate.migrateTable G t s = (Val None, sync.2, tr)
        /\ calls tr = migrated t
    | None, Some hook =>
        Migrate.migrateTable G t s = (Val (hook sync.2).1, (hook sync.2).2, tr)
        /\ calls tr = [(CallAutoMigrate t, None); (CallAfterMigrate t, (hook sync.2).1)]
    end.
Proof.
  unfold Migrate.migrateTable, migrated. run_monad.
  destruct (db_AutoMigrate G t s) as [[e|] s1]; simpl; [eauto|].
  destruct (asMigratable G t) as [hook|]; simpl; [|eauto].
  destruct (hook s1) as [[e|] s2]; simpl; eauto.
Qed.

Lemma forEach_migrates l s :
  migratesInOrder l (forEach (Migrate.migrateTable G) l s).
Proof.
  revert s. induction l as [|a l IH]; intros s; [by left|].
  simpl. destruct (migrateTable_run a s) as (tr & Hrun). simpl in Hrun.
  destruct (db_AutoMigrate G a s) as [[e|] s1] eqn:Hsync; simpl in Hrun.
  { destruct Hrun as [Hrun Hc]. rewrite (bind_val _ _ _ _ _ _ Hrun).
    right. exists [], a, l, e. unfold result, trace. simpl.
    rewrite app_nil_r. eauto. }
  assert (Hstep : forall r s2,
            Migrate.migrateTable G a s = (Val r, s2, tr) ->
            calls tr = [(CallAutoMigrate a, None)] ++
                       match asMigratable G a with
                       | Some _ => [(CallAfterMigrate a, r)]
                       | None => []
                       end ->
            (r = None \/ is_Some (asMigratable G a)) ->
            migratesInOrder (a :: l)
              (bind (Migrate.migrateTable G a)
                 (fun r => match r with
                           | Some e => ret (Some e)
                           | None => forEach (Migrate.migrateTable G) l
                           end) s)).
  { intros r s2 Hrun' Hc Hcase. rewrite (bind_val _ _ _ _ _ _ Hrun').
    destruct r as [e|].
    - destruct Hcase as [|Hm]; [done|].
      right. exists [], a, l, e. unfold result, trace. simpl.
      rewrite app_nil_r. destruct Hm as [h Hh]. rewrite Hh in Hc.
      repeat split; try done. right. split; [by rewrite Hh|done].
    - assert (Hmig : calls tr = migrated a).
      { rewrite Hc. unfold migrated. by destruct (asMigratable G a). }
      destruct (IH s2) as [[Hr Hcl] | (pre & t & post & e & -> & Hr & Hcl)].
      + left. unfold result, trace in *. simpl in *.
        by rewrite calls_app, Hmig, Hcl.
      + right. exists (a :: pre), t, post, e. unfold result, trace in *. simpl in *.
        rewrite calls_app, Hmig. split; [done|]. split; [done|].
        unfold allMigrated. simpl. rewrite <- !app_assoc.
        destruct Hcl as [->|[Hm ->]]; [by left|by right]. }
  destruct (asMigratable G a) as [hook|] eqn:Hhook.
  - destruct Hrun as [Hrun Hc]. eapply Hstep; [exact Hrun|exact Hc|]. right. eauto.
  - destruct Hrun as [Hrun Hc]. eapply Hstep; [exact Hrun| |by left].
    rewrite Hc. unfold migrated. by rewrite Hhook.
Qed.

Lemma bind_sameEffect {A B} (m1 m2 : M G A) (k1 k2 : A -> M G B) s :
  sameEffect (m1 s) (m2 s) ->
  (forall a s', sameEffect (k1 a s') (k2 a s')) ->
  sameEffect (bind m1 k1 s) (bind m2 k2 s).
Proof.
  intros (Hr & Hf & Hc) Hk. unfold bind.
  destruct (m1 s) as [[r1 s1] t1], (m2 s) as [[r2 s2] t2].
  unfold result, final, trace in Hr, Hf, Hc. simpl in Hr, Hf, Hc. subst r2 s2.
  destruct r1 as [a|v]; [|done].
  destruct (Hk a s1) as (Hr' & Hf' & Hc').
  destruct (k1 a s1) as [[r1' s1'] t1'], (k2 a s1) as [[r2' s2'] t2'].
  unfold sameEffect, result, final, trace in *. simpl in *.
  by rewrite !calls_app, Hc, Hc', Hr', Hf'.
Qed.

Lemma stops_head mk (t : Model G) l out :
  stopsAtFirstError mk (t :: l) out ->
  exists r rest, calls (trace out) = (mk t, r) :: rest.
Proof.
  intros [[_ Hc] | (pre & t' & post & e & Hl & _ & Hc)]; rewrite Hc.
  - by eexists _, _.
  - destruct pre as [|a pre]; simpl in Hl; injection Hl as <- _; by eexists _, _.
Qed.


(** C4: when the tables before [C] migrate without error, a failing hook
    of [C] is called right after [C]'s successful schema sync, its error
    is what [AutoMigrate] returns, and nothing is called for the tables
    after [C]; a failing schema sync of [C] is returned likewise, before
    [C]'s hook and before any later table. *)
Theorem AutoMigrate_fail_fast (pre post : list (Model G)) (C : Model G)
    (s s1 : St G) (trp : list (Event G)) :
  Migrate.AutoMigrate G pre s = (Val None, s1, trp) ->
  let out := Migrate.AutoMigrate G (pre ++ C :: post) s in
  calls trp = allMigrated pre
  /\ (forall hook e s2 s3,
        db_AutoMigrate G C s1 = (None, s2) ->
        asMigratable G C = Some hook ->
        hook s2 = (Some e, s3) ->
        result out = Val (Some e)
        /\ final out = s3
        /\ calls (trace out) =
             allMigrated pre ++ [(CallAutoMigrate C, None); (CallAfterMigrate C, Some e)])
  /\ (forall e s2,
        db_AutoMigrate G C s1 = (Some e, s2) ->
        result out = Val (Some e)
        /\ final out = s2
        /\ calls (trace out) = allMigrated pre ++ [(CallAutoMigrate C, Some e)]).
Proof.
  intros Hpre out.
  destruct (AutoMigrate_sameEffect pre s) as (Hr & Hf & Hc).
  rewrite Hpre in Hr, Hf, Hc. unfold result, final, trace in Hr, Hf, Hc.
  simpl in Hr, Hf, Hc.
  assert (Hcalls : calls trp = allMigrated pre).
  { destruct (forEach_migrates pre s) as [[_ Hm] | (? & ? & ? & ? & _ & Hr' & _)].
    - by rewrite Hc.
    - unfold result in Hr'. congruence. }
  split; [exact Hcalls|].
  destruct (AutoMigrate_sameEffect (pre ++ C :: post) s) as (Hr' & Hf' & Hc').
  fold out in Hr', Hf', Hc'. rewrite Hr', Hf', Hc'.
  rewrite forEach_app.
  destruct (forEach (Migrate.migrateTable G) pre s) as [[r0 s0] t0].
  simpl in Hr, Hf. subst r0 s0. rewrite <- Hcalls, Hc.
  unfold result, final, trace. simpl.
  destruct (migrateTable_run C s1) as (tr & Hrun). simpl in Hrun.
  split.
  - intros hook e s2 s3 Hsync Hhook Hfail.
    rewrite Hsync, Hhook in Hrun. simpl in Hrun. rewrite Hfail in Hrun.
    destruct Hrun as [Hrun Hct]. rewrite (bind_val _ _ _ _ _ _ Hrun). simpl.
    by rewrite calls_app, calls_app, Hct.
  - intros e s2 Hsync. rewrite Hsync in Hrun. simpl in Hrun.
    destruct Hrun as [Hrun Hct]. rewrite (bind_val _ _ _ _ _ _ Hrun). simpl.
    by rewrite calls_app, calls_app, Hct.
Qed.

(** C10: on the empty list each function returns nil, leaves the
    database as it was and writes its two boundary lines only. *)
Theorem empty_list_boundary_lines_only (s : St G) :
  Migrate.AutoMigrate G [] s =
    (Val None, s,
     [EvLog Info [AnyString "msg"; AnyString "running db auto-migration..."];
      EvLog Info [AnyString "msg"; AnyString "db auto-migration done."]])
  /\ Migrate.Drop G [] s =
       (Val None, s,
        [EvLog Info [AnyString "msg"; AnyString "running db drop"];
         EvLog Info [AnyString "msg"; AnyString "db drop complete"]])
  /\ Migrate.Truncate G [] s =
       (Val None, s,
        [EvLog Info [AnyString "msg"; AnyString "running db truncate"];
         EvLog Info [AnyString "msg"; AnyString "db truncate complete"]])
  /\ Migrate.ResetDB G [] s =
       (Val None, s,
        [EvLog Info [AnyString "msg"; AnyString "running db drop"];
         EvLog Info [AnyString "msg"; AnyString "db drop complete"];
         EvLog Info [AnyString "msg"; AnyString "running db auto-migration..."];
         EvLog Info [AnyString "msg"; AnyString "db auto-migration done."]]).
Proof. repeat split. Qed.

(** C7, amended: the two [Truncate] differ on every non-empty list, the
    one of migrate.go executing [TRUNCATE TABLE] statements and the one of
    the near-duplicate dropping the tables, both from the end of the
    list; the two [ResetDB] nevertheless have the same effect on the
    database, because the one of migrate.go calls [Drop]: both drop the
    tables before migrating them again. *)
Theorem Truncate_variants_differ_ResetDB_variants_agree
    (t : Model G) (tables : list (Model G)) (s : St G) :
  variantsDiffer (Migrate.Truncate G (tables ++ [t]) s)
    (Part000.Truncate G (tables ++ [t]) s)
  /\ stopsAtFirstError (fun t => CallExec (Migrate.truncateSQL G t)) (reverse tables)
       (Migrate.Truncate G tables s)
  /\ stopsAtFirstError CallDropTableIfExists (reverse tables)
       (Part000.Truncate G tables s)
  /\ sameEffect (Migrate.ResetDB G tables s) (Part000.ResetDB G tables s)
  /\ stopsAtFirstError CallDropTableIfExists (reverse tables)
       (Migrate.Drop G tables s).
Proof.
  assert (Hm : forall l, stopsAtFirstError (fun t => CallExec (Migrate.truncateSQL G t))
                 (reverse l) (Migrate.Truncate G l s)).
  { intros l. eapply stops_sameEffect; [apply Truncate_sameEffect|].
    apply (forEach_stops _ (fun t => db_Exec G (Migrate.truncateSQL G t))),
      truncateTable_run. }
  assert (Hp : forall l, stopsAtFirstError CallDropTableIfExists
                 (reverse l) (Part000.Truncate G l s)).
  { intros l. eapply stops_sameEffect; [apply part000_Truncate_sameEffect|].
    apply (forEach_stops _ (db_DropTableIfExists G)), part000_truncateTable_run. }
  split; [|split; [apply Hm|split; [apply Hp|split]]].
  - unfold variantsDiffer.
    specialize (Hm (tables ++ [t])). specialize (Hp (tables ++ [t])).
    rewrite reverse_snoc in Hm, Hp.
    apply stops_head in Hm as (r1 & rest1 & ->).
    apply stops_head in Hp as (r2 & rest2 & ->).
    discriminate.
  - unfold Migrate.ResetDB, Part000.ResetDB. apply bind_sameEffect.
    + eapply sameEffect_trans; [apply Drop_sameEffect|].
      eapply sameEffect_trans; [|apply sameEffect_sym, part000_Truncate_sameEffect].
      apply (forEach_sameEffect CallDropTableIfExists (db_DropTableIfExists G)).
      * apply dropTable_run.
      * apply part000_truncateTable_run.
    + intros [e|] s'; done.
  - eapply stops_sameEffect; [apply Drop_sameEffect|].
    apply (forEach_stops _ (db_DropTableIfExists G)), dropTable_run.
Qed.

End WithGorm.

(** *** The orchestrator on the test double *)

Lemma AutoMigrate_fail_fast_witness :
  result (Migrate.AutoMigrate (Double.gorm Double.quiet)
            [Double.tableA; Double.tableB; Double.tableC; Double.tableD] [])
  = Val (Some Double.hookError)
  /\ calls (trace (Migrate.AutoMigrate (Double.gorm Double.quiet)
                     [Double.tableA; Double.tableB; Double.tableC; Double.tableD] []))
     = [Double.sync Double.tableA None;
        Double.sync Double.tableB None; Double.hook Double.tableB None;
        Double.sync Double.tableC None;
        Double.hook Double.tableC (Some Double.hookError)].
Proof.
  destruct (AutoMigrate_fail_fast (Double.gorm Double.quiet)
              [Double.tableA; Double.tableB] [Double.tableD] Double.tableC []
              ["auto-migrate A"; "auto-migrate B"; "after-migrate B"]
              (trace (Migrate.AutoMigrate (Double.gorm Double.quiet)
                        [Double.tableA; Double.tableB] []))
              eq_refl) as (_ & Hhook & _).
  destruct (Hhook (fun j => (Some Double.hookError, j ++ ["after-migrate C"]))
              Double.hookError
              ["auto-migrate A"; "auto-migrate B"; "after-migrate B"; "auto-migrate C"]
              ["auto-migrate A"; "auto-migrate B"; "after-migrate B"; "auto-migrate C";
               "after-migrate C"]
              eq_refl eq_refl eq_refl) as (Hr & _ & Hc).
  split; [exact Hr | exact Hc].
Defined.


(** C7 as stated fails in its last part: on the same tables the two
    [ResetDB] make the same calls, drops followed by migrations. *)
Lemma ResetDB_variants_both_drop :
  ~ variantsDiffer
      (Migrate.ResetDB (Double.gorm Double.quiet) [Double.tableA; Double.tableB] [])
      (Part000.ResetDB (Double.gorm Double.quiet) [Double.tableA; Double.tableB] []).
Proof. intros Hdiffer. apply Hdiffer. reflexivity. Qed.

End MigrateFacts.

(** * Further properties *)

(** ** The pattern [keyMatcher], beyond table references *)

Module RegexpMore.
Import Regexp RegexpFacts.

Lemma length_append (a b : string) :
  String.length (a +:+ b) = String.length a + String.length b.
Proof.
  induction a as [|c a IH]; [done|].
  rewrite append_cons. simpl. by rewrite IH.
Qed.

Lemma optSpaceLParen_needs_lparen (s : string) :
  occurs "(" s = false -> optSpaceLParen s = None.
Proof.
  destruct s as [|a s]; [done|]. simpl.
  intros [Ha Hs]%orb_false_elim. unfold optSpaceLParen.
  destruct s as [|b s].
  - destruct a as [[] [] [] [] [] [] [] []]; try reflexivity; discriminate.
  - simpl in Hs. apply orb_false_elim in Hs as [Hb _].
    destruct a as [[] [] [] [] [] [] [] []]; try reflexivity; try discriminate.
    destruct b as [[] [] [] [] [] [] [] []]; try reflexivity; discriminate.
Qed.

(** X1: a description without an opening parenthesis has no reference to
    replace: the fragment is the description itself, and the expected
    message names the constraint after it unchanged. *)
Theorem ReplaceAllString_without_lparen (sourceTable column table : string) :
  occurs "(" table = false ->
  ReplaceAllString table = table
  /\ Dbutils.foreignKeyExistsMsg sourceTable column table =
     "pq: constraint " +:+ dq +:+ sourceTable +:+ "_" +:+ column +:+ "_" +:+
     table +:+ "_foreign" +:+ dq +:+ " for relation " +:+ dq +:+
     sourceTable +:+ dq +:+ " already exists".
Proof.
  intros Hno.
  assert (Hid : ReplaceAllString table = table).
  { induction table as [|a t IH]; [done|].
    rewrite ReplaceAllString_cons. unfold keyMatcher_at.
    rewrite (optSpaceLParen_needs_lparen _ Hno).
    simpl in Hno. apply orb_false_elim in Hno as [_ Ht].
    by rewrite IH. }
  split; [exact Hid|].
  unfold Dbutils.foreignKeyExistsMsg, Dbutils.tableFragmentOf. by rewrite Hid.
Qed.

Lemma ReplaceAllString_without_lparen_witness :
  ReplaceAllString "users" = "users".
Proof.
  destruct (ReplaceAllString_without_lparen "orders" "user_id" "users" eq_refl)
    as [Hid _].
  exact Hid.
Defined.

Lemma spanNotRParen_split (s : string) :
  (spanNotRParen s).1 +:+ (spanNotRParen s).2 = s.
Proof.
  induction s as [|a s IH]; [done|]. simpl.
  destruct (Ascii.eqb a ")"); [done|].
  destruct (spanNotRParen s) as [g r]. simpl in *.
  by rewrite append_cons, IH.
Qed.

Lemma optRParen_length (s : string) :
  String.length (optRParen s) <= String.length s.
Proof.
  destruct s as [|a s]; [done|].
  destruct a as [[] [] [] [] [] [] [] []]; simpl; lia.
Qed.

Lemma optSpaceLParen_length (s t : string) :
  optSpaceLParen s = Some t -> S (String.length t) <= String.length s.
Proof.
  destruct s as [|a s]; [done|]. unfold optSpaceLParen.
  destruct a as [[] [] [] [] [] [] [] []]; try discriminate;
    [intros [= <-]; simpl; lia|].
  destruct s as [|b s]; [discriminate|].
  destruct b as [[] [] [] [] [] [] [] []]; try discriminate.
  intros [= <-]. simpl. lia.
Qed.

(** A match is at least as long as what replaces it. *)
Lemma keyMatcher_at_length (s g rest : string) :
  keyMatcher_at s = Some (g, rest) ->
  S (String.length g + String.length rest) <= String.length s.
Proof.
  unfold keyMatcher_at.
  destruct (optSpaceLParen s) as [t|] eqn:Ht; [|discriminate].
  apply optSpaceLParen_length in Ht.
  pose proof (spanNotRParen_split t) as Hsplit.
  destruct (spanNotRParen t) as [g' r']. simpl in Hsplit.
  destruct g' as [|a g']; [discriminate|].
  intros [= <- <-].
  pose proof (optRParen_length r') as Hr.
  rewrite <- Hsplit, length_append in Ht. lia.
Qed.

(** X2: the replacement never makes a description longer. *)
Theorem ReplaceAllString_no_longer (s : string) :
  String.length (ReplaceAllString s) <= String.length s.
Proof.
  remember (String.length s) as n eqn:Hn.
  revert s Hn. induction n as [n IH] using lt_wf_ind. intros s ->.
  destruct s as [|c t]; [done|].
  rewrite ReplaceAllString_cons.
  destruct (keyMatcher_at (String c t)) as [[g rest]|] eqn:Hm.
  - apply keyMatcher_at_length in Hm.
    rewrite !length_append. simpl.
    specialize (IH (String.length rest) ltac:(simpl in *; lia) rest eq_refl).
    simpl in *. lia.
  - simpl. specialize (IH (String.length t) ltac:(simpl; lia) t eq_refl). lia.
Qed.

Lemma spanNotRParen_all (col : string) :
  occurs ")" col = false -> spanNotRParen col = (col, EmptyString).
Proof.
  induction col as [|a col IH]; [done|]. simpl.
  intros [Ha Hc]%orb_false_elim. by rewrite Ha, IH.
Qed.

(** No match starts inside a text free of [(] that a space follows. *)
Lemma keyMatcher_at_before_space (a : ascii) (tbl r : string) :
  occurs "(" (String a tbl) = false ->
  keyMatcher_at (String a tbl +:+ String " " r) = None.
Proof.
  simpl. intros [Ha Ht]%orb_false_elim.
  unfold keyMatcher_at.
  assert (optSpaceLParen (String a tbl +:+ String " " r) = None) as ->; [|done].
  rewrite append_cons. unfold optSpaceLParen.
  destruct tbl as [|b tbl].
  - rewrite append_nil_l.
    destruct a as [[] [] [] [] [] [] [] []]; try reflexivity; discriminate.
  - rewrite append_cons. simpl in Ht. apply orb_false_elim in Ht as [Hb _].
    destruct a as [[] [] [] [] [] [] [] []]; try reflexivity; try discriminate.
    destruct b as [[] [] [] [] [] [] [] []]; try reflexivity; discriminate.
Qed.

(** A text free of [(] that a space follows is copied. *)
Lemma ReplaceAllString_copies (tbl r : string) :
  occurs "(" tbl = false ->
  ReplaceAllString (tbl +:+ String " " r) = tbl +:+ ReplaceAllString (String " " r).
Proof.
  intros Htbl. induction tbl as [|a tbl IH]; [done|].
  pose proof (keyMatcher_at_before_space a tbl r Htbl) as Hn.
  rewrite append_cons in Hn |- *.
  rewrite ReplaceAllString_cons, Hn, IH; [by rewrite append_cons|].
  simpl in Htbl. by apply orb_false_elim in Htbl as [_ ?].
Qed.

(** X3: after a reference the scan goes on with the text that follows
    it, and a reference that is never closed is replaced like a closed
    one. *)
Theorem ReplaceAllString_resumes_after_reference (tbl col rest : string) :
  occurs "(" tbl = false ->
  col <> EmptyString ->
  occurs ")" col = false ->
  ReplaceAllString (tbl +:+ " (" +:+ col +:+ ")" +:+ rest) =
    tbl +:+ "_" +:+ col +:+ ReplaceAllString rest
  /\ ReplaceAllString (tbl +:+ " (" +:+ col) = tbl +:+ "_" +:+ col.
Proof.
  intros Htbl Hcol Hnp.
  change (" (" +:+ col +:+ ")" +:+ rest) with (String " " ("(" +:+ col +:+ ")" +:+ rest)).
  change (" (" +:+ col) with (String " " ("(" +:+ col)).
  rewrite !ReplaceAllString_copies by done.
  split; f_equal.
  - rewrite ReplaceAllString_cons. unfold keyMatcher_at.
    change ("(" +:+ col +:+ ")" +:+ rest) with (String "(" (col +:+ String ")" rest)).
    cbn [optSpaceLParen]. rewrite spanNotRParen_app by done.
    destruct col as [|a col]; [done|]. reflexivity.
  - rewrite ReplaceAllString_cons. unfold keyMatcher_at.
    change ("(" +:+ col) with (String "(" col).
    cbn [optSpaceLParen]. rewrite spanNotRParen_all by done.
    destruct col as [|a col]; [done|]. cbn [optRParen].
    simp ReplaceAllString. by rewrite append_nil_r.
Qed.

Lemma ReplaceAllString_resumes_after_reference_witness :
  ReplaceAllString "users (id) (tenant)" = "users_id" +:+ ReplaceAllString " (tenant)"
  /\ ReplaceAllString "users (id" = "users_id".
Proof.
  exact (ReplaceAllString_resumes_after_reference "users" "id" " (tenant)"
           eq_refl ltac:(discriminate) eq_refl).
Defined.

End RegexpMore.

(** ** dbutils.go: further properties of the helpers *)

Module DbutilsMore.
Import Regexp Dbutils RegexpFacts RegexpMore DbutilsFacts.

Lemma append_assoc (a b c : string) : (a +:+ b) +:+ c = a +:+ b +:+ c.
Proof.
  induction a as [|x a IH]; [done|]. by rewrite !append_cons, IH.
Qed.

(** A message inside a longer one is not that message. *)
Lemma wrapped_differs (pre msg post : string) :
  pre <> EmptyString \/ post <> EmptyString -> pre +:+ msg +:+ post <> msg.
Proof.
  intros Hwrap Heq. apply (f_equal String.length) in Heq.
  rewrite !length_append in Heq.
  destruct Hwrap as [H|H]; [destruct pre|destruct post]; simpl in Heq; try done; lia.
Qed.

Section WithGorm.
Context (G : Gorm).

(** X4: the helpers compare whole messages.  An error that carries the
    already-exists message inside a longer message (a prefix or a suffix
    added by whoever wrapped it) is not recognised: it is returned as it
    is, after the one call, and nothing is logged. *)
Theorem Ensure_returns_wrapped_error
    (model : Model G) (sourceTable column table onDelete onUpdate : string)
    (name constraint : string) (unique : bool) (s s1 : St G) (e : error)
    (pre post : string) :
  pre <> EmptyString \/ post <> EmptyString ->
  (db_AddForeignKey G model column table onDelete onUpdate s = (Some e, s1) ->
   Error e = pre +:+ foreignKeyExistsMsg sourceTable column table +:+ post ->
   EnsureForeignKey G model sourceTable column table onDelete onUpdate s =
     (Val (Some e), s1,
      [EvCall (CallAddForeignKey model column table onDelete onUpdate) (Some e)]))
  /\ (db_Exec G (constraintQuery G model name constraint) s = (Some e, s1) ->
      Error e = pre +:+ constraintExistsMsg name (TableName G model) +:+ post ->
      EnsureConstraint G model name constraint s =
        (Val (Some e), s1,
         [EvCall (CallExec (constraintQuery G model name constraint)) (Some e)]))
  /\ (db_Exec G (indexQuery G name constraint unique) s = (Some e, s1) ->
      Error e = pre +:+ indexExistsMsg name +:+ post ->
      EnsureIndex G model name constraint unique s =
        (Val (Some e), s1,
         [EvCall (CallExec (indexQuery G name constraint unique)) (Some e)])).
Proof.
  intros Hwrap.
  split; [|split]; intros Hcall Hmsg.
  all: unfold EnsureForeignKey, EnsureConstraint, EnsureIndex; run_monad.
  all: rewrite Hcall; simpl.
  all: match goal with
       | |- context [String.eqb ?a ?b] => destruct (String.eqb_spec a b) as [Heq|_]
       end; [|done].
  all: rewrite Hmsg in Heq; by apply wrapped_differs in Heq.
Qed.

(** X5: whatever the database answers, a helper makes one call and no
    other, and leaves the database as that call left it; it neither
    retries nor panics. *)
Theorem Ensure_makes_one_call
    (model : Model G) (sourceTable column table onDelete onUpdate : string)
    (name constraint : string) (unique : bool) (s : St G) :
  (let op := db_AddForeignKey G model column table onDelete onUpdate s in
   let out := EnsureForeignKey G model sourceTable column table onDelete onUpdate s in
   calls (trace out) = [(CallAddForeignKey model column table onDelete onUpdate, op.1)]
   /\ final out = op.2 /\ exists r, result out = Val r)
  /\ (let op := db_Exec G (constraintQuery G model name constraint) s in
      let out := EnsureConstraint G model name constraint s in
      calls (trace out) = [(CallExec (constraintQuery G model name constraint), op.1)]
      /\ final out = op.2 /\ exists r, result out = Val r)
  /\ (let op := db_Exec G (indexQuery G name constraint unique) s in
      let out := EnsureIndex G model name constraint unique s in
      calls (trace out) = [(CallExec (indexQuery G name constraint unique), op.1)]
      /\ final out = op.2 /\ exists r, result out = Val r).
Proof.
  unfold EnsureForeignKey, EnsureConstraint, EnsureIndex.
  split; [|split]; run_monad.
  all: match goal with
       | |- context [db_AddForeignKey ?a ?b ?c ?d ?e ?f ?g] =>
           destruct (db_AddForeignKey a b c d e f g) as [[e0|] s1]
       | |- context [db_Exec ?a ?b ?c] =>
           destruct (db_Exec a b c) as [[e0|] s1]
       end; simpl; eauto.
  all: match goal with
       | |- context [String.eqb ?a ?b] => destruct (String.eqb a b)
       end; simpl; eauto.
Qed.

End WithGorm.

Lemma Ensure_returns_wrapped_error_witness :
  result (EnsureIndex (Double.gorm Stage.wrappedIndexTaken) (Double.plain "users")
            "idx_users_email" "users(email)" false [])
  = Val (Double.execAnswer Stage.wrappedIndexTaken).
Proof.
  assert (Hpost : " (SQLSTATE 42P07)" <> EmptyString) by discriminate.
  destruct (Ensure_returns_wrapped_error (Double.gorm Stage.wrappedIndexTaken)
              (Double.plain "users") "orders" "user_id" "users (id)" "CASCADE" "CASCADE"
              "idx_users_email" "users(email)" false []
              [indexQuery (Double.gorm Stage.wrappedIndexTaken)
                 "idx_users_email" "users(email)" false]
              (ForeignError 11
                 ("pq: relation " +:+ dq +:+ "idx_users_email" +:+ dq +:+
                  " already exists" +:+ " (SQLSTATE 42P07)"))
              EmptyString " (SQLSTATE 42P07)"
              (or_intror Hpost)) as (_ & _ & Hindex).
  rewrite (Hindex eq_refl eq_refl). reflexivity.
Defined.

(** ** dbutils.go: further properties of the transactional wrapper *)

Section TransactMore.
Context (G : Gorm).



End TransactMore.


(** ** dbutils.go: further properties of the update map *)

Section UpdateMapMore.
Context (G : Gorm).

Lemma append_inj (p : string) : Inj (=) (=) (String.append p).
Proof. intros a b. apply append_inj_r. Qed.

(** X8: the keys of the map are the prefixed column names of the fields,
    no more and no fewer, so the map never has more entries than the
    value has fields. *)
Theorem ToUpdateColumnsMap_keys (prefix : string) (structval : Model G) :
  dom (ToUpdateColumnsMap G prefix structval) =
    list_to_set ((fun f => prefix +:+ DBName f) <$> Fields G structval)
  /\ size (ToUpdateColumnsMap G prefix structval) <= length (Fields G structval).
Proof.
  unfold ToUpdateColumnsMap.
  induction (Fields G structval) as [|f fs [IHd IHs]] using rev_ind.
  - split; [|done]. simpl. by rewrite dom_empty_L.
  - rewrite fill_snoc, fmap_app, list_to_set_app_L, dom_insert_L, length_app.
    split.
    + rewrite IHd. simpl. rewrite (right_id_L ∅ (∪)). apply (comm_L (∪)).
    + rewrite map_size_insert. simpl.
      destruct (_ !! _); unfold id; lia.
Qed.

(** X9: the prefix only renames the keys: the map built with a prefix is
    the map built with the empty prefix, every key of which got the prefix
    in front. *)
Theorem ToUpdateColumnsMap_prefix_renames (prefix : string) (structval : Model G) :
  ToUpdateColumnsMap G prefix structval =
  kmap (String.append prefix) (ToUpdateColumnsMap G EmptyString structval).
Proof.
  pose proof (append_inj prefix) as Hinj.
  unfold ToUpdateColumnsMap.
  induction (Fields G structval) as [|f fs IH] using rev_ind.
  - simpl. by rewrite kmap_empty.
  - rewrite !fill_snoc, IH, append_nil_l. by rewrite kmap_insert.
Qed.

(** X10: when the column names are pairwise distinct, the order in which
    the fields are listed does not matter. *)
Theorem ToUpdateColumnsMap_order_irrelevant (prefix : string) (v1 v2 : Model G) :
  Fields G v1 ≡ₚ Fields G v2 ->
  NoDup (DBName <$> Fields G v1) ->
  ToUpdateColumnsMap G prefix v1 = ToUpdateColumnsMap G prefix v2.
Proof.
  intros Hperm Hnd1.
  assert (Hnd2 : NoDup (DBName <$> Fields G v2)) by (by rewrite <- Hperm).
  unfold ToUpdateColumnsMap.
  destruct (fill_distinct prefix _ Hnd1) as [_ H1].
  destruct (fill_distinct prefix _ Hnd2) as [_ H2].
  apply map_eq. intros k.
  destruct (foldl (setColumn prefix) ∅ (Fields G v1) !! k) as [x|] eqn:Hk1.
  - apply fill_origin in Hk1 as (f & Hf & -> & ->).
    symmetry. apply H2. by rewrite <- Hperm.
  - destruct (foldl (setColumn prefix) ∅ (Fields G v2) !! k) as [y|] eqn:Hk2; [|done].
    apply fill_origin in Hk2 as (f & Hf & -> & ->).
    rewrite H1 in Hk1; [done|]. by rewrite Hperm.
Qed.

End UpdateMapMore.

Lemma ToUpdateColumnsMap_order_irrelevant_witness :
  ToUpdateColumnsMap (Double.gorm Double.quiet) "new_" Double.entity
  = ToUpdateColumnsMap (Double.gorm Double.quiet) "new_" Stage.entityReordered.
Proof.
  apply (ToUpdateColumnsMap_order_irrelevant (Double.gorm Double.quiet)).
  - apply perm_swap.
  - simpl. apply NoDup_cons. split.
    + apply not_elem_of_cons. split; [discriminate | apply not_elem_of_nil].
    + apply NoDup_singleton.
Defined.

End DbutilsMore.

(** ** The orchestrator: further properties *)

Module MigrateMore.
Import MigrateFacts.

Section WithGorm.
Context (G : Gorm).

(** The loop runs as [Runs] says. *)
Lemma forEach_Runs {A} (body : A -> M G (option error)) (l : list A) (s : St G) :
  Runs body l s (forEach body l s).
Proof.
  revert s. induction l as [|x l IH]; intros s; [constructor|].
  simpl. unfold bind.
  destruct (body x s) as [[[[e|]|v] s1] t1] eqn:Hx.
  - simpl. rewrite app_nil_r. by apply Runs_return.
  - specialize (IH s1). destruct (forEach body l s1) as [[r s2] t2].
    by eapply Runs_next.
  - by apply Runs_panic.
Qed.

Lemma critErrors_app (t1 t2 : list (Event G)) :
  critErrors (t1 ++ t2) = critErrors t1 ++ critErrors t2.
Proof. apply omap_app. Qed.

Lemma infoMessages_app (t1 t2 : list (Event G)) :
  infoMessages (t1 ++ t2) = infoMessages t1 ++ infoMessages t2.
Proof. apply omap_app. Qed.

Lemma announced_app (t1 t2 : list (Event G)) :
  announced (t1 ++ t2) = announced t1 ++ announced t2.
Proof. apply omap_app. Qed.

(** What a loop inherits from its body. *)
Lemma Runs_reports {A} (body : A -> M G (option error)) l s out :
  (forall x s, reportsItsError (body x s)) ->
  Runs body l s out -> reportsItsError out.
Proof.
  intros Hbody Hruns. induction Hruns as [s|x xs s e s1 t1 Hx|x xs s v s1 t1 Hx
                                          |x xs s s1 t1 r s2 t2 Hx _ IH].
  - done.
  - specialize (Hbody x s). by rewrite Hx in Hbody.
  - specialize (Hbody x s). by rewrite Hx in Hbody.
  - specialize (Hbody x s). rewrite Hx in Hbody.
    unfold reportsItsError, result, trace in *. simpl in *.
    rewrite critErrors_app, Hbody. done.
Qed.

Lemma Runs_quiet {A} (body : A -> M G (option error)) l s out :
  (forall x s, infoMessages (trace (body x s)) = []) ->
  Runs body l s out -> infoMessages (trace out) = [].
Proof.
  intros Hbody Hruns. induction Hruns as [s|x xs s e s1 t1 Hx|x xs s v s1 t1 Hx
                                          |x xs s s1 t1 r s2 t2 Hx _ IH].
  - done.
  - specialize (Hbody x s). by rewrite Hx in Hbody.
  - specialize (Hbody x s). by rewrite Hx in Hbody.
  - specialize (Hbody x s). rewrite Hx in Hbody.
    unfold trace in *. simpl in *. by rewrite infoMessages_app, Hbody, IH.
Qed.

Lemma Runs_announces_calls {A} (body : A -> M G (option error)) l s out :
  (forall x s, announced (trace (body x s)) = callTable <$> calls (trace (body x s))) ->
  Runs body l s out -> announced (trace out) = callTable <$> calls (trace out).
Proof.
  intros Hbody Hruns. induction Hruns as [s|x xs s e s1 t1 Hx|x xs s v s1 t1 Hx
                                          |x xs s s1 t1 r s2 t2 Hx _ IH].
  - done.
  - specialize (Hbody x s). by rewrite Hx in Hbody.
  - specialize (Hbody x s). by rewrite Hx in Hbody.
  - specialize (Hbody x s). rewrite Hx in Hbody.
    unfold trace in *. simpl in *.
    by rewrite announced_app, calls_app, fmap_app, Hbody, IH.
Qed.

Lemma Runs_announces_visited {A} (name : A -> option any)
    (body : A -> M G (option error)) l s out :
  (forall x s, announced (trace (body x s)) = [name x]
               /\ length (calls (trace (body x s))) = 1) ->
  Runs body l s out ->
  announced (trace out) = name <$> take (length (calls (trace out))) l.
Proof.
  intros Hbody Hruns. induction Hruns as [s|x xs s e s1 t1 Hx|x xs s v s1 t1 Hx
                                          |x xs s s1 t1 r s2 t2 Hx _ IH].
  - done.
  - destruct (Hbody x s) as [Ha Hc]. rewrite Hx in Ha, Hc.
    unfold trace in *. simpl in *. by rewrite Ha, Hc.
  - destruct (Hbody x s) as [Ha Hc]. rewrite Hx in Ha, Hc.
    unfold trace in *. simpl in *. by rewrite Ha, Hc.
  - destruct (Hbody x s) as [Ha Hc]. rewrite Hx in Ha, Hc.
    unfold trace in *. simpl in *.
    rewrite announced_app, calls_app, length_app, Ha, Hc, IH. done.
Qed.

(** The bodies of the four loops. *)
Lemma dropTable_trail t s :
  reportsItsError (Migrate.dropTable G t s)
  /\ infoMessages (trace (Migrate.dropTable G t s)) = []
  /\ announced (trace (Migrate.dropTable G t s)) = [Some (AnyString (TypeName G t))]
  /\ calls (trace (Migrate.dropTable G t s))
     = [(CallDropTableIfExists t, (db_DropTableIfExists G t s).1)].
Proof.
  unfold reportsItsError, Migrate.dropTable. run_monad.
  destruct (db_DropTableIfExists G t s) as [[e|] s1]; done.
Qed.

Lemma truncateTable_trail t s :
  reportsItsError (Migrate.truncateTable G t s)
  /\ infoMessages (trace (Migrate.truncateTable G t s)) = []
  /\ announced (trace (Migrate.truncateTable G t s)) = [Some (AnyString (TypeName G t))]
  /\ calls (trace (Migrate.truncateTable G t s))
     = [(CallExec (Migrate.truncateSQL G t), (db_Exec G (Migrate.truncateSQL G t) s).1)].
Proof.
  unfold reportsItsError, Migrate.truncateTable. run_monad.
  destruct (db_Exec G (Migrate.truncateSQL G t) s) as [[e|] s1]; done.
Qed.

Lemma part000_truncateTable_trail t s :
  reportsItsError (Part000.truncateTable G t s)
  /\ infoMessages (trace (Part000.truncateTable G t s)) = []
  /\ announced (trace (Part000.truncateTable G t s)) = [Some (AnyString (TypeName G t))]
  /\ calls (trace (Part000.truncateTable G t s))
     = [(CallDropTableIfExists t, (db_DropTableIfExists G t s).1)].
Proof.
  unfold reportsItsError, Part000.truncateTable. run_monad.
  destruct (db_DropTableIfExists G t s) as [[e|] s1]; done.
Qed.

Lemma migrateTable_trail t s :
  reportsItsError (Migrate.migrateTable G t s)
  /\ infoMessages (trace (Migrate.migrateTable G t s)) = []
  /\ announced (trace (Migrate.migrateTable G t s))
     = callTable <$> calls (trace (Migrate.migrateTable G t s)).
Proof.
  unfold reportsItsError, Migrate.migrateTable. run_monad.
  destruct (db_AutoMigrate G t s) as [[e|] s1]; simpl; [done|].
  destruct (asMigratable G t) as [hook|]; simpl; [|done].
  destruct (hook s1) as [[e|] s2]; done.
Qed.

(** The three functions as their loop between the two boundary lines. *)
Lemma Drop_run tables s :
  Migrate.Drop G tables s =
  match forEach (Migrate.dropTable G) (reverse tables) s with
  | (Val None, s1, tr) =>
      (Val None, s1,
       EvLog Info [AnyString "msg"; AnyString "running db drop"] :: tr ++
       [EvLog Info [AnyString "msg"; AnyString "db drop complete"]])
  | (other, s1, tr) =>
      (other, s1, EvLog Info [AnyString "msg"; AnyString "running db drop"] :: tr)
  end.
Proof.
  rewrite <- forRange_reverse. unfold Migrate.Drop. apply bracketed_run.
Qed.

Lemma Truncate_run tables s :
  Migrate.Truncate G tables s =
  match forEach (Migrate.truncateTable G) (reverse tables) s with
  | (Val None, s1, tr) =>
      (Val None, s1,
       EvLog Info [AnyString "msg"; AnyString "running db truncate"] :: tr ++
       [EvLog Info [AnyString "msg"; AnyString "db truncate complete"]])
  | (other, s1, tr) =>
      (other, s1, EvLog Info [AnyString "msg"; AnyString "running db truncate"] :: tr)
  end.
Proof.
  rewrite <- forRange_reverse. unfold Migrate.Truncate. apply bracketed_run.
Qed.

Lemma AutoMigrate_run tables s :
  Migrate.AutoMigrate G tables s =
  match forEach (Migrate.migrateTable G) tables s with
  | (Val None, s1, tr) =>
      (Val None, s1,
       EvLog Info [AnyString "msg"; AnyString "running db auto-migration..."] :: tr ++
       [EvLog Info [AnyString "msg"; AnyString "db auto-migration done."]])
  | (other, s1, tr) =>
      (other, s1,
       EvLog Info [AnyString "msg"; AnyString "running db auto-migration..."] :: tr)
  end.
Proof. unfold Migrate.AutoMigrate. apply bracketed_run. Qed.

Lemma part000_Truncate_run tables s :
  Part000.Truncate G tables s =
  match forEach (Part000.truncateTable G) (reverse tables) s with
  | (Val None, s1, tr) =>
      (Val None, s1,
       EvLog Info [AnyString "msg"; AnyString "running db truncation"] :: tr ++
       [EvLog Info [AnyString "msg"; AnyString "db truncation complete"]])
  | (other, s1, tr) =>
      (other, s1, EvLog Info [AnyString "msg"; AnyString "running db truncation"] :: tr)
  end.
Proof.
  rewrite <- forRange_reverse. unfold Part000.Truncate. apply bracketed_run.
Qed.

(** A loop whose body keeps the log discipline, put between two boundary
    lines, keeps it too. *)
Lemma bracket_trail (start finish : string) (loop : Res (option error) * St G * list (Event G)) :
  reportsItsError loop ->
  infoMessages (trace loop) = [] ->
  let out :=
    match loop with
    | (Val None, s1, tr) =>
        (Val None, s1,
         EvLog Info [AnyString "msg"; AnyString start] :: tr ++
         [EvLog Info [AnyString "msg"; AnyString finish]])
    | (other, s1, tr) => (other, s1, EvLog Info [AnyString "msg"; AnyString start] :: tr)
    end in
  reportsItsError out
  /\ bracketedBy start finish out
  /\ announced (trace out) = announced (trace loop)
  /\ calls (trace out) = calls (trace loop)
  /\ result out = result loop.
Proof.
  destruct loop as [[[[e|]|v] s1] tr];
    unfold reportsItsError, bracketedBy, result, trace; simpl; intros Hrep Hq; try done.
  - by rewrite Hq.
  - rewrite critErrors_app, infoMessages_app, announced_app, calls_app, Hrep, Hq.
    simpl. by rewrite !app_nil_r.
Qed.

Lemma Drop_trail tables s :
  reportsItsError (Migrate.Drop G tables s)
  /\ bracketedBy "running db drop" "db drop complete" (Migrate.Drop G tables s)
  /\ announced (trace (Migrate.Drop G tables s)) =
       (fun t => Some (AnyString (TypeName G t))) <$>
       take (length (calls (trace (Migrate.Drop G tables s)))) (reverse tables).
Proof.
  pose proof (forEach_Runs (Migrate.dropTable G) (reverse tables) s) as Hruns.
  pose proof (Runs_reports _ _ _ _ (fun x s => proj1 (dropTable_trail x s)) Hruns) as Hrep.
  pose proof (Runs_quiet _ _ _ _
                (fun x s => proj1 (proj2 (dropTable_trail x s))) Hruns) as Hq.
  pose proof (Runs_announces_visited (fun t => Some (AnyString (TypeName G t))) _ _ _ _
                (fun x s => conj (proj1 (proj2 (proj2 (dropTable_trail x s))))
                                 (f_equal length (proj2 (proj2 (proj2 (dropTable_trail x s))))))
                Hruns) as Ha.
  destruct (bracket_trail "running db drop" "db drop complete" _ Hrep Hq)
    as (H1 & H2 & H3 & H4 & _).
  rewrite Drop_run. rewrite H3, H4. done.
Qed.

Lemma Truncate_trail tables s :
  reportsItsError (Migrate.Truncate G tables s)
  /\ bracketedBy "running db truncate" "db truncate complete" (Migrate.Truncate G tables s)
  /\ announced (trace (Migrate.Truncate G tables s)) =
       (fun t => Some (AnyString (TypeName G t))) <$>
       take (length (calls (trace (Migrate.Truncate G tables s)))) (reverse tables).
Proof.
  pose proof (forEach_Runs (Migrate.truncateTable G) (reverse tables) s) as Hruns.
  pose proof (Runs_reports _ _ _ _ (fun x s => proj1 (truncateTable_trail x s)) Hruns)
    as Hrep.
  pose proof (Runs_quiet _ _ _ _
                (fun x s => proj1 (proj2 (truncateTable_trail x s))) Hruns) as Hq.
  pose proof (Runs_announces_visited (fun t => Some (AnyString (TypeName G t))) _ _ _ _
                (fun x s => conj (proj1 (proj2 (proj2 (truncateTable_trail x s))))
                                 (f_equal length
                                    (proj2 (proj2 (proj2 (truncateTable_trail x s))))))
                Hruns) as Ha.
  destruct (bracket_trail "running db truncate" "db truncate complete" _ Hrep Hq)
    as (H1 & H2 & H3 & H4 & _).
  rewrite Truncate_run. rewrite H3, H4. done.
Qed.

Lemma part000_Truncate_trail tables s :
  reportsItsError (Part000.Truncate G tables s)
  /\ bracketedBy "running db truncation" "db truncation complete"
       (Part000.Truncate G tables s)
  /\ announced (trace (Part000.Truncate G tables s)) =
       (fun t => Some (AnyString (TypeName G t))) <$>
       take (length (calls (trace (Part000.Truncate G tables s)))) (reverse tables).
Proof.
  pose proof (forEach_Runs (Part000.truncateTable G) (reverse tables) s) as Hruns.
  pose proof (Runs_reports _ _ _ _ (fun x s => proj1 (part000_truncateTable_trail x s))
                Hruns) as Hrep.
  pose proof (Runs_quiet _ _ _ _
                (fun x s => proj1 (proj2 (part000_truncateTable_trail x s))) Hruns) as Hq.
  pose proof (Runs_announces_visited (fun t => Some (AnyString (TypeName G t))) _ _ _ _
                (fun x s =>
                   conj (proj1 (proj2 (proj2 (part000_truncateTable_trail x s))))
                        (f_equal length
                           (proj2 (proj2 (proj2 (part000_truncateTable_trail x s))))))
                Hruns) as Ha.
  destruct (bracket_trail "running db truncation" "db truncation complete" _ Hrep Hq)
    as (H1 & H2 & H3 & H4 & _).
  rewrite part000_Truncate_run. rewrite H3, H4. done.
Qed.

Lemma AutoMigrate_trail tables s :
  reportsItsError (Migrate.AutoMigrate G tables s)
  /\ bracketedBy "running db auto-migration..." "db auto-migration done."
       (Migrate.AutoMigrate G tables s)
  /\ announced (trace (Migrate.AutoMigrate G tables s)) =
       callTable <$> calls (trace (Migrate.AutoMigrate G tables s)).
Proof.
  pose proof (forEach_Runs (Migrate.migrateTable G) tables s) as Hruns.
  pose proof (Runs_reports _ _ _ _ (fun x s => proj1 (migrateTable_trail x s)) Hruns)
    as Hrep.
  pose proof (Runs_quiet _ _ _ _
                (fun x s => proj1 (proj2 (migrateTable_trail x s))) Hruns) as Hq.
  pose proof (Runs_announces_calls _ _ _ _
                (fun x s => proj2 (proj2 (migrateTable_trail x s))) Hruns) as Ha.
  destruct (bracket_trail "running db auto-migration..." "db auto-migration done."
              _ Hrep Hq) as (H1 & H2 & H3 & H4 & _).
  rewrite AutoMigrate_run. rewrite H3, H4. done.
Qed.

(** [ResetDB] inherits the discipline of the two functions it chains. *)
Lemma andThen_reports (a b : M G (option error)) s :
  reportsItsError (a s) ->
  (forall s', reportsItsError (b s')) ->
  reportsItsError (andThen a b s).
Proof.
  intros Ha Hb. unfold andThen, bind.
  destruct (a s) as [[[[e|]|v] s1] t1]; [| |done].
  - unfold reportsItsError, result, trace in *. simpl in *. by rewrite app_nil_r.
  - specialize (Hb s1). destruct (b s1) as [[r s2] t2].
    unfold reportsItsError, result, trace in *. simpl in *.
    rewrite critErrors_app, Ha. done.
Qed.

(** X11: every error the orchestrator returns was written once at
    critical level, carrying that error, and a nil result comes with no
    critical line; no function of the orchestrator panics, the index
    [len-i-1] of the backward loops being always in range. *)
Theorem orchestrator_reports_its_error (tables : list (Model G)) (s : St G) :
  reportsItsError (Migrate.AutoMigrate G tables s)
  /\ reportsItsError (Migrate.Drop G tables s)
  /\ reportsItsError (Migrate.Truncate G tables s)
  /\ reportsItsError (Migrate.ResetDB G tables s)
  /\ reportsItsError (Part000.Truncate G tables s)
  /\ reportsItsError (Part000.ResetDB G tables s).
Proof.
  split; [apply AutoMigrate_trail|].
  split; [apply Drop_trail|].
  split; [apply Truncate_trail|].
  split; [|split; [apply part000_Truncate_trail|]].
  - apply (andThen_reports (Migrate.Drop G tables) (Migrate.AutoMigrate G tables)).
    + apply Drop_trail.
    + intros s'. apply AutoMigrate_trail.
  - apply (andThen_reports (Part000.Truncate G tables) (Migrate.AutoMigrate G tables)).
    + apply part000_Truncate_trail.
    + intros s'. apply AutoMigrate_trail.
Qed.


(** X13: the debug lines are a faithful trail of the calls: [AutoMigrate]
    names, before each schema sync and each hook, the table it is about,
    and the backward loops name, one line per call, the tables from the
    end of the list. *)
Theorem orchestrator_announces_each_call (tables : list (Model G)) (s : St G) :
  announced (trace (Migrate.AutoMigrate G tables s)) =
    callTable <$> calls (trace (Migrate.AutoMigrate G tables s))
  /\ announced (trace (Migrate.Drop G tables s)) =
       (fun t => Some (AnyString (TypeName G t))) <$>
       take (length (calls (trace (Migrate.Drop G tables s)))) (reverse tables)
  /\ announced (trace (Migrate.Truncate G tables s)) =
       (fun t => Some (AnyString (TypeName G t))) <$>
       take (length (calls (trace (Migrate.Truncate G tables s)))) (reverse tables)
  /\ announced (trace (Part000.Truncate G tables s)) =
       (fun t => Some (AnyString (TypeName G t))) <$>
       take (length (calls (trace (Part000.Truncate G tables s)))) (reverse tables).
Proof.
  split; [apply AutoMigrate_trail|].
  split; [apply Drop_trail|].
  split; [apply Truncate_trail|apply part000_Truncate_trail].
Qed.

(** *** Composition *)

Lemma forEach_app_andThen {A} (body : A -> M G (option error)) (l1 l2 : list A) s :
  forEach body (l1 ++ l2) s = andThen (forEach body l1) (forEach body l2) s.
Proof.
  rewrite forEach_app. unfold andThen, bind.
  destruct (forEach body l1 s) as [[[[e|]|v] s1] t1]; simpl; [by rewrite app_nil_r| |done].
  by destruct (forEach body l2 s1) as [[r s2] t2].
Qed.

Lemma andThen_sameEffect (a1 a2 b1 b2 : M G (option error)) s :
  sameEffect (a1 s) (a2 s) ->
  (forall s', sameEffect (b1 s') (b2 s')) ->
  sameEffect (andThen a1 b1 s) (andThen a2 b2 s).
Proof.
  intros Ha Hb. unfold andThen. apply bind_sameEffect; [done|].
  intros [e|] s'; [done|apply Hb].
Qed.

(** X14: migrating a list in two parts, the second only when the first
    returned nil, has the effect of migrating the whole list: the same
    result, the same database, the same calls. *)
Theorem AutoMigrate_in_two_parts (l1 l2 : list (Model G)) (s : St G) :
  sameEffect (Migrate.AutoMigrate G (l1 ++ l2) s)
    (andThen (Migrate.AutoMigrate G l1) (Migrate.AutoMigrate G l2) s).
Proof.
  eapply sameEffect_trans; [apply AutoMigrate_sameEffect|].
  rewrite forEach_app_andThen.
  apply andThen_sameEffect; [|intros s']; apply sameEffect_sym, AutoMigrate_sameEffect.
Qed.

(** X15: destruction composes the other way round: dropping (or
    truncating) a list has the effect of dropping its second part and
    then, when that returned nil, its first part. *)
Theorem destruction_in_two_parts (l1 l2 : list (Model G)) (s : St G) :
  sameEffect (Migrate.Drop G (l1 ++ l2) s)
    (andThen (Migrate.Drop G l2) (Migrate.Drop G l1) s)
  /\ sameEffect (Migrate.Truncate G (l1 ++ l2) s)
       (andThen (Migrate.Truncate G l2) (Migrate.Truncate G l1) s)
  /\ sameEffect (Part000.Truncate G (l1 ++ l2) s)
       (andThen (Part000.Truncate G l2) (Part000.Truncate G l1) s).
Proof.
  split; [|split].
  - eapply sameEffect_trans; [apply Drop_sameEffect|].
    rewrite reverse_app, forEach_app_andThen.
    apply andThen_sameEffect; [|intros s']; apply sameEffect_sym, Drop_sameEffect.
  - eapply sameEffect_trans; [apply Truncate_sameEffect|].
    rewrite reverse_app, forEach_app_andThen.
    apply andThen_sameEffect; [|intros s']; apply sameEffect_sym, Truncate_sameEffect.
  - eapply sameEffect_trans; [apply part000_Truncate_sameEffect|].
    rewrite reverse_app, forEach_app_andThen.
    apply andThen_sameEffect; [|intros s']; apply sameEffect_sym, part000_Truncate_sameEffect.
Qed.

(** X16: the [Truncate] of the near-duplicate file is the [Drop] of
    migrate.go but for the wording of its log lines: same result, same
    database, same calls on every list. *)
Theorem part000_Truncate_is_Drop (tables : list (Model G)) (s : St G) :
  sameEffect (Part000.Truncate G tables s) (Migrate.Drop G tables s).
Proof.
  eapply sameEffect_trans; [apply part000_Truncate_sameEffect|].
  eapply sameEffect_trans; [|apply sameEffect_sym, Drop_sameEffect].
  apply (forEach_sameEffect G CallDropTableIfExists (db_DropTableIfExists G)).
  - apply part000_truncateTable_run.
  - apply dropTable_run.
Qed.

(** *** What the functions never touch *)




End WithGorm.
End MigrateMore.
